(** * pdrive-clean: finding and removing "edit conflict" files

    A shallow embedding of [clean.py].  The script walks a directory tree,
    keeps the non-directory entries whose file name contains an edit-conflict
    marker, reports them with their combined size, asks for confirmation on
    standard input and unlinks them one by one.

    Layout of the development:
    - Python strings as lists of code points, and the fragment of [re] that
      the compiled pattern uses (language semantics, derivatives, [search]);
    - the file system as a tree with symbolic links and permissions: path
      resolution, [Path.exists], [Path.is_dir], [Path.stat], [os.walk] and
      [os.remove];
    - the console: which messages [rich.print] writes and on which it raises;
    - [find_files], [remove_files] and the [__main__] block over a world made
      of the file system, standard input and an event trace;
    - the size formatting of the summary line;
    - the properties. *)

From Stdlib Require Import List NArith ZArith Bool Ascii String Lia.
From Stdlib Require Import DecimalString.
Import ListNotations.

Set Warnings "-register-all".

(** ** Python strings *)

(** A [str] is a sequence of Unicode code points. *)
Definition pystr : Type := list N.

(** An ASCII literal of the source, as a [str]. *)
Definition lit (s : string) : pystr := map N_of_ascii (list_ascii_of_string s).

Definition pystr_eqb (a b : pystr) : bool :=
  if list_eq_dec N.eq_dec a b then true else false.

(** ** The regular expressions of [re] used by the script *)

Section Regex.

(** [\d] on a [str] pattern is [Py_UNICODE_ISDECIMAL]: the ten ASCII digits
    and the decimal digits of the other scripts.  The latter come from the
    interpreter's Unicode tables, which are not part of the script:
    [uni_decimal] stands for that table and is only consulted outside the
    ASCII block. *)
Variable uni_decimal : N -> bool.

Definition isdecimal (c : N) : bool :=
  if (c <? 128)%N then (48 <=? c)%N && (c <=? 57)%N else uni_decimal c.

(** One-character items of a pattern. *)
Inductive charclass : Type :=
| CLit (c : N)      (* a literal character *)
| CDigit            (* \d *)
| CDot.             (* . without DOTALL: anything but a line feed *)

Definition in_class (k : charclass) (c : N) : bool :=
  match k with
  | CLit a => (a =? c)%N
  | CDigit => isdecimal c
  | CDot => negb (c =? 10)%N
  end.

(** [RFail] and [RAlt] do not occur in the script's pattern; they are what
    derivatives of concatenations are made of. *)
Inductive regex : Type :=
| RFail
| REps
| RChr (k : charclass)
| RCat (r s : regex)
| RAlt (r s : regex)
| RStar (r : regex).

(** The language of a pattern. *)
Inductive matches : regex -> pystr -> Prop :=
| M_eps : matches REps []
| M_chr k c : in_class k c = true -> matches (RChr k) [c]
| M_cat r s u v : matches r u -> matches s v -> matches (RCat r s) (u ++ v)
| M_alt_l r s u : matches r u -> matches (RAlt r s) u
| M_alt_r r s u : matches s u -> matches (RAlt r s) u
| M_star_nil r : matches (RStar r) []
| M_star_app r u v :
    matches r u -> matches (RStar r) v -> matches (RStar r) (u ++ v).

Fixpoint nullable (r : regex) : bool :=
  match r with
  | RFail => false
  | REps => true
  | RChr _ => false
  | RCat r s => nullable r && nullable s
  | RAlt r s => nullable r || nullable s
  | RStar _ => true
  end.

Fixpoint der (c : N) (r : regex) : regex :=
  match r with
  | RFail => RFail
  | REps => RFail
  | RChr k => if in_class k c then REps else RFail
  | RCat r s =>
      if nullable r then RAlt (RCat (der c r) s) (der c s)
      else RCat (der c r) s
  | RAlt r s => RAlt (der c r) (der c s)
  | RStar r => RCat (der c r) (RStar r)
  end.

(** [match_here r s]: the pattern matches some prefix of [s]
    (the truth value of [Pattern.match]). *)
Fixpoint match_here (r : regex) (s : pystr) : bool :=
  nullable r ||
  match s with
  | [] => false
  | c :: t => match_here (der c r) t
  end.

(** [search r s]: the pattern matches at some position of [s]
    (the truth value of [Pattern.search], which tries every start). *)
Fixpoint search (r : regex) (s : pystr) : bool :=
  match_here r s ||
  match s with
  | [] => false
  | _ :: t => search r t
  end.

(** Pattern builders. *)
Fixpoint rlit (s : pystr) : regex :=
  match s with
  | [] => REps
  | c :: t => RCat (RChr (CLit c)) (rlit t)
  end.

(** [r{n}] *)
Fixpoint rrep (n : nat) (r : regex) : regex :=
  match n with
  | O => REps
  | S n => RCat r (rrep n r)
  end.

(** [re.compile(r"# Edit conflict \d{4}-\d{2}-\d{2} .* #")] *)
Definition conflict_re : regex :=
  RCat (rlit (lit "# Edit conflict "))
 (RCat (rrep 4 (RChr CDigit))
 (RCat (rlit (lit "-"))
 (RCat (rrep 2 (RChr CDigit))
 (RCat (rlit (lit "-"))
 (RCat (rrep 2 (RChr CDigit))
 (RCat (rlit (lit " "))
 (RCat (RStar (RChr CDot))
       (rlit (lit " #"))))))))).

(** [conflict_re.search(file)], as the condition of the [if]. *)
Definition conflict_search (file : pystr) : bool := search conflict_re file.

End Regex.


(** ** The file system *)

(** A [Path] is its sequence of parts, resolved from the directory the tree
    below stands for (the working directory); the parts [.] and [..] are
    not modelled. *)
Definition path : Type := list pystr.

Record dirattr : Type := mk_dirattr {
  readable : bool;     (* r: the directory may be listed *)
  writable : bool;     (* w: entries may be unlinked from it *)
  searchable : bool;   (* x: paths may go through it *)
  dir_size : list pystr -> N
                       (* its own st_size, which the file system derives
                          from the names it holds *)
}.

(** The tree.  A symbolic link holds the path it points to, from the root of
    the tree; what it leads to is found when a path is resolved.  Entries of
    a directory are kept in listing order. *)
Inductive node : Type :=
| File (st_size : N)
| Symlink (target : list pystr)
| Dir (attr : dirattr) (entries : list (pystr * node)).

(** The exceptions the script can meet; all are subclasses of [Exception]. *)
Inductive exn : Type :=
| FileNotFoundError       (* ENOENT *)
| NotADirectoryError      (* ENOTDIR *)
| IsADirectoryError       (* EISDIR *)
| PermissionError         (* EACCES *)
| TooManyLinks            (* OSError with ELOOP *)
| EOFError
| OverflowError
| MarkupError             (* rich.errors.MarkupError *)
| UnicodeEncodeError.

(** [os.path.islink] on an entry. *)
Definition islink (n : node) : bool :=
  match n with
  | Symlink _ => true
  | _ => false
  end.

Fixpoint assoc (name : pystr) (es : list (pystr * node)) : option node :=
  match es with
  | [] => None
  | (k, v) :: t => if pystr_eqb k name then Some v else assoc name t
  end.

(** *** Path resolution *)

Definition is_nil (p : path) : bool :=
  match p with
  | [] => true
  | _ => false
  end.

(** The kernel's walk along a path.  [n] is the node reached so far and
    [cur] the real path to it (through directories only); [rest] is what is
    left to resolve.  A directory on the way must be searchable.  A link met
    on the way, or at the end when [follow] is set, is replaced by its target,
    resolved from the root; [hops] bounds the links followed. *)
Fixpoint namei (hops : nat) (root : node) (follow : bool) {struct hops}
    : node -> path -> path -> exn + (path * node) :=
  fix go (n : node) (cur rest : path) {struct rest} : exn + (path * node) :=
    match rest with
    | [] => inr (cur, n)
    | name :: rest' =>
        match n with
        | Dir a es =>
            if searchable a then
              match assoc name es with
              | None => inl FileNotFoundError
              | Some (Symlink tgt) =>
                  if follow || negb (is_nil rest') then
                    match hops with
                    | O => inl TooManyLinks
                    | S h => namei h root follow root [] (tgt ++ rest')
                    end
                  else inr (cur ++ [name], Symlink tgt)
              | Some c => go c (cur ++ [name]) rest'
              end
            else inl PermissionError
        | _ => inl NotADirectoryError
        end
    end.

(** At most 40 links are followed in one resolution. *)
Definition max_links : nat := 40.

(** What [stat] sees at a path: links followed to the end. *)
Definition resolve (root : node) (p : path) : exn + (path * node) :=
  namei max_links root true root [] p.

(** What [lstat] sees: the last part is not followed. *)
Definition lresolve (root : node) (p : path) : exn + (path * node) :=
  namei max_links root false root [] p.

(** The errors [pathlib] takes for "no such path": ENOENT, ENOTDIR, ELOOP. *)
Definition ignored_error (e : exn) : bool :=
  match e with
  | FileNotFoundError | NotADirectoryError | TooManyLinks => true
  | _ => false
  end.

(** [Path.exists()]: [stat], with the errors above read as [False] and any
    other one raised again. *)
Definition path_exists (p : path) (tree : node) : exn + bool :=
  match resolve tree p with
  | inr _ => inr true
  | inl e => if ignored_error e then inr false else inl e
  end.

(** [Path.is_dir()], likewise. *)
Definition path_is_dir (p : path) (tree : node) : exn + bool :=
  match resolve tree p with
  | inr (_, Dir _ _) => inr true
  | inr _ => inr false
  | inl e => if ignored_error e then inr false else inl e
  end.

(** [Path.stat().st_size] *)
Definition stat_size (p : path) (tree : node) : exn + N :=
  match resolve tree p with
  | inr (_, File sz) => inr sz
  | inr (_, Dir a es) => inr (dir_size a (map fst es))
  | inr (_, Symlink _) => inl TooManyLinks
  | inl e => inl e
  end.

(** *** [os.walk] *)

(** [DirEntry.is_dir()] as [os.walk] uses it: the entry's type for a
    directory or a file, [stat] of its path for a link, and [False] when
    that [stat] fails. *)
Definition entry_is_dir (root : node) (top : path) (e : pystr * node) : bool :=
  match snd e with
  | Dir _ _ => true
  | File _ => false
  | Symlink _ =>
      match resolve root (top ++ [fst e]) with
      | inr (_, Dir _ _) => true
      | _ => false
      end
  end.

(** The two name lists [os.walk] builds from one [scandir]. *)
Definition dirs_of (root : node) (top : path) (es : list (pystr * node))
    : list pystr :=
  map fst (filter (entry_is_dir root top) es).

Definition nondirs_of (root : node) (top : path) (es : list (pystr * node))
    : list pystr :=
  map fst (filter (fun e => negb (entry_is_dir root top e)) es).

(** Top-down walk with [onerror=None] and [followlinks=False], from a
    directory [n] already opened under the path [top].  A directory that may
    not be listed yields nothing and is passed over in silence.  The entries
    of [dirs] that are no links are entered; that takes the search permission
    of the directory they are in. *)
Fixpoint walk (root : node) (top : path) (n : node)
    : list (path * list pystr * list pystr) :=
  match n with
  | Dir a es =>
      if readable a then
        (top, dirs_of root top es, nondirs_of root top es) ::
        (if searchable a then
           flat_map (fun e =>
                       let '(name, c) := e in
                       match c with
                       | Dir _ _ => walk root (top ++ [name]) c
                       | _ => []
                       end)
                    es
         else [])
      else []
  | _ => []
  end.

(** [os.walk(top)] in the tree: [scandir(top)] opens what [top] resolves to;
    when that fails nothing is yielded. *)
Definition os_walk (top : path) (tree : node)
    : list (path * list pystr * list pystr) :=
  match resolve tree top with
  | inr (_, n) => walk tree top n
  | inl _ => []
  end.

(** *** [os.remove] *)

Fixpoint remove_assoc (name : pystr) (es : list (pystr * node))
    : list (pystr * node) :=
  match es with
  | [] => []
  | (k, v) :: t => if pystr_eqb k name then t else (k, v) :: remove_assoc name t
  end.

(** A path as its directory part and its last part. *)
Fixpoint split_last (p : path) : option (path * pystr) :=
  match p with
  | [] => None
  | x :: t =>
      match split_last t with
      | None => Some ([], x)
      | Some (q, l) => Some (x :: q, l)
      end
  end.

(** The tree without the entry [name] of the directory at the real path
    [at_]. *)
Fixpoint remove_at (at_ : path) (name : pystr) (n : node) {struct n} : node :=
  match n with
  | Dir a es =>
      match at_ with
      | [] => Dir a (remove_assoc name es)
      | k :: at' =>
          Dir a ((fix upd (l : list (pystr * node)) : list (pystr * node) :=
                    match l with
                    | [] => []
                    | (k', v) :: t =>
                        if pystr_eqb k' k then (k', remove_at at' name v) :: t
                        else (k', v) :: upd t
                    end) es)
      end
  | _ => n
  end.

(** [unlink(2)], as Linux orders its checks: the directory part is
    resolved, links followed; the entry is looked up there, which takes
    search permission and fails when the name is missing; removing it takes
    write permission on the directory; a directory is not removed.  A link
    is removed itself, not what it leads to. *)
Definition unlink (p : path) (root : node) : exn + node :=
  match split_last p with
  | None => inl IsADirectoryError
  | Some (q, name) =>
      match resolve root q with
      | inl e => inl e
      | inr (at_, Dir a es) =>
          if searchable a then
            match assoc name es with
            | None => inl FileNotFoundError
            | Some c =>
                if writable a then
                  match c with
                  | Dir _ _ => inl IsADirectoryError
                  | _ => inr (remove_at at_ name root)
                  end
                else inl PermissionError
            end
          else inl PermissionError
      | inr _ => inl NotADirectoryError
      end
  end.

(** ** The console *)

(** What [rich.print] is given.  Each constructor is one of the six format
    strings of the script, with the values put into it; paths are kept as
    paths. *)
Inductive message : Type :=
| Found_conflict_file (full_path : path)
| Skipping_file (full_path : path)
| Removed_file (file : path)
| Error_removing_file (file : path) (e : exn)
| Directory_does_not_exist (dir : path)
| Found_n_conflict_files (n : nat)
| Listing (files : list path)
| Aborting_file_removal.

(** [sep.join(l)] *)
Fixpoint join (sep : pystr) (l : list pystr) : pystr :=
  match l with
  | [] => []
  | [x] => x
  | x :: t => x ++ sep ++ join sep t
  end.

(** [str(p)] for a path: its parts with slashes between, a dot for the
    path without parts. *)
Definition path_text (p : path) : pystr :=
  match p with
  | [] => lit "."
  | _ => join (lit "/") p
  end.

(** The text a message carries from outside the script, as it stands in
    the string given to [rich.print].  For the error report the text of the
    exception comes after it; for the listing the paths are joined. *)
Definition interpolated (m : message) : option pystr :=
  match m with
  | Found_conflict_file p | Skipping_file p | Removed_file p
  | Directory_does_not_exist p => Some (path_text p)
  | Error_removing_file p _ => Some (path_text p)
  | Listing files => Some (join (10%N :: lit " - ") (map path_text files))
  | Found_n_conflict_files _ | Aborting_file_removal => None
  end.

(** Code points of the brackets, the slash and the backslash. *)
Definition lbracket : N := 91.
Definition rbracket : N := 93.
Definition slash : N := 47.
Definition backslash : N := 92.

(** Text that [rich.print] writes as it is, on any console: ASCII without
    an opening bracket, so that no markup tag can start in it and every
    character can be encoded. *)
Definition is_plain (s : pystr) : bool :=
  forallb (fun c => (c <? 128)%N && negb (c =? lbracket)%N) s.

(** The first bracket at or after this point is a closing one. *)
Fixpoint closes (s : pystr) : bool :=
  match s with
  | [] => false
  | c :: t =>
      if (c =? rbracket)%N then true
      else if (c =? lbracket)%N then false
      else closes t
  end.

(** The first opening bracket of the text starts a closing tag, [[/...]],
    and is not escaped by a backslash before it.  The format strings close
    their own tags before the interpolated text, so this tag closes nothing. *)
Fixpoint stray_close (prev : N) (s : pystr) : bool :=
  match s with
  | [] => false
  | c :: t =>
      if (c =? lbracket)%N then
        negb (prev =? backslash)%N
        && match t with
           | c' :: u => (c' =? slash)%N && closes u
           | [] => false
           end
      else stray_close c t
  end.

(** The exceptions of the operating system; their text is
    ["[Errno n] message: 'path'"], where the bracket opens no tag. *)
Definition os_error (e : exn) : bool :=
  match e with
  | FileNotFoundError | NotADirectoryError | IsADirectoryError
  | PermissionError | TooManyLinks => true
  | _ => false
  end.

(** The message is written whatever the console. *)
Definition surely_printed (m : message) : bool :=
  match m with
  | Error_removing_file p e => is_plain (path_text p) && os_error e
  | _ =>
      match interpolated m with
      | None => true
      | Some s => is_plain s
      end
  end.

(** The markup parser raises on the message: the text is preceded by a
    space or a dash in every format string, never by a backslash. *)
Definition surely_rejected (m : message) : bool :=
  match interpolated m with
  | None => false
  | Some s => stray_close 32%N s
  end.

Section Console.

(** What [rich.print] does with the other messages (other markup, characters
    the console's encoding may lack) is decided by [rich] and by the console,
    which are not part of the script: [None] when the message is written,
    the exception otherwise. *)
Variable rich : message -> option exn.

(** [rich.print(text)]: [None] when the line is written, the exception
    raised otherwise. *)
Definition print_outcome (m : message) : option exn :=
  if surely_printed m then None
  else if surely_rejected m then Some MarkupError
  else rich m.

Definition prints (m : message) : bool :=
  match print_outcome m with
  | None => true
  | Some _ => false
  end.

End Console.

(** ** The world of the script *)

(** The calls that reach the outside, in the order they happen. *)
Inductive event : Type :=
| Tqdm_open (dir : path)                  (* the bar of the walk is drawn *)
| Tqdm_update                             (* one directory done *)
| Tqdm_close
| Print (m : message)                     (* a line written by [rich.print] *)
| Stat (p : path)
| Input (n : nat) (total_size_str : string) (* the prompt of [input] *)
| Remove (p : path).

(** The state a run threads: nothing else changes the tree while the
    script runs. *)
Record world : Type := mk_world {
  fs : node;                (* the tree paths are resolved in *)
  stdin : list pystr;       (* the lines still to be read *)
  trace : list event
}.

(** How a computation ends: a value, an exception, or [exit(code)]. *)
Inductive result (A : Type) : Type :=
| Ok (a : A)
| Raise (e : exn)
| SysExit (code : Z).

Arguments Ok {A} a.
Arguments Raise {A} e.
Arguments SysExit {A} code.

Definition M (A : Type) : Type := world -> result A * world.

Definition ret {A} (a : A) : M A := fun w => (Ok a, w).

Definition bind {A B} (m : M A) (k : A -> M B) : M B :=
  fun w =>
    match m w with
    | (Ok a, w') => k a w'
    | (Raise e, w') => (Raise e, w')
    | (SysExit c, w') => (SysExit c, w')
    end.

Declare Scope py_scope.
Delimit Scope py_scope with py.
Notation "x <- m ;; k" := (bind m (fun x => k))
  (at level 61, m at next level, right associativity) : py_scope.
Notation "m ;; k" := (bind m (fun _ => k))
  (at level 61, right associativity) : py_scope.
Local Open Scope py_scope.

Definition raise {A} (e : exn) : M A := fun w => (Raise e, w).

(** [exit(code)] raises [SystemExit], which [except Exception] lets through. *)
Definition exit {A} (code : Z) : M A := fun w => (SysExit code, w).

(** [try: body except Exception as e: handler(e)] *)
Definition try_except {A} (body : M A) (handler : exn -> M A) : M A :=
  fun w =>
    match body w with
    | (Raise e, w') => handler e w'
    | r => r
    end.

(** An event is appended to the trace. *)
Definition emit (ev : event) : M unit :=
  fun w => (Ok tt, mk_world (fs w) (stdin w) (trace w ++ [ev])).

(** [rich.print]: the line is written, or the call raises and nothing is
    written. *)
Definition print (rich : message -> option exn) (m : message) : M unit :=
  match print_outcome rich m with
  | None => emit (Print m)
  | Some e => raise e
  end.

(** A result of the file system, in a run. *)
Definition lift {A} (r : exn + A) : M A :=
  fun w =>
    match r with
    | inl e => (Raise e, w)
    | inr a => (Ok a, w)
    end.

Definition get_fs : M node := fun w => (Ok (fs w), w).

(** [dir.exists()] and [dir.is_dir()] *)
Definition exists_ (dir : path) : M bool :=
  tree <- get_fs ;; lift (path_exists dir tree).

Definition is_dir (dir : path) : M bool :=
  tree <- get_fs ;; lift (path_is_dir dir tree).

(** [input(prompt)]: one line of standard input, [EOFError] at its end. *)
Definition input (n : nat) (total_size_str : string) : M pystr :=
  emit (Input n total_size_str) ;;
  fun w =>
    match stdin w with
    | [] => (Raise EOFError, w)
    | line :: rest => (Ok line, mk_world (fs w) rest (trace w))
    end.

(** [f.stat().st_size] *)
Definition stat_st_size (f : path) : M N :=
  emit (Stat f) ;;
  tree <- get_fs ;; lift (stat_size f tree).

(** [os.remove(file)] *)
Definition os_remove (file : path) : M unit :=
  emit (Remove file) ;;
  fun w =>
    match unlink file (fs w) with
    | inl e => (Raise e, w)
    | inr fs' => (Ok tt, mk_world fs' (stdin w) (trace w))
    end.

(** [for x in xs: body(x)] *)
Fixpoint for_each {A} (xs : list A) (body : A -> M unit) : M unit :=
  match xs with
  | [] => ret tt
  | x :: rest => body x ;; for_each rest body
  end.
(** ** Numbers of the summary line *)

(** A non-negative binary64 value [mant / 2^scale]. *)
Record pyfloat : Type := mk_float { mant : N; scale : N }.

(** Rounding of an integer to 53 significant bits, ties to even. *)
Definition round53 (x : N) : N :=
  let bits := N.size x in
  if (bits <=? 53)%N then x
  else
    let e := (bits - 53)%N in
    let q := N.shiftr x e in
    let r := N.land x (N.ones e) in
    let half := N.shiftl 1 (e - 1) in
    let q' := if (half <? r)%N then (q + 1)%N
              else if (r <? half)%N then q
              else if N.even q then q else (q + 1)%N in
    N.shiftl q' e.

(** [x / 2**k] on integers: true division gives the correctly rounded
    quotient, and raises [OverflowError] when that is beyond binary64. *)
Definition truediv_pow2 (x k : N) : exn + pyfloat :=
  let m := round53 x in
  if (N.shiftl 1 (1024 + k) <=? m)%N then inl OverflowError
  else inr (mk_float m k).

(** Nearest integer to [num / den], ties to even. *)
Definition round_half_even (num den : N) : N :=
  let q := (num / den)%N in
  let r := (num mod den)%N in
  if (2 * r <? den)%N then q
  else if (den <? 2 * r)%N then (q + 1)%N
  else if N.even q then q else (q + 1)%N.

Definition dec (n : N) : string := NilZero.string_of_uint (N.to_uint n).

(** The value in hundredths that [:.2f] displays. *)
Definition hundredths (v : pyfloat) : N :=
  round_half_even (100 * mant v) (N.shiftl 1 (scale v)).

(** [f"{v:.2f}"] *)
Definition format_2f (v : pyfloat) : string :=
  let h := hundredths v in
  (dec (h / 100) ++ "." ++ dec ((h mod 100) / 10) ++ dec (h mod 10))%string.

(** The conditional expression that builds [total_size_str]. *)
Definition total_size_str (total_size : N) : exn + string :=
  if (1024 ^ 2 <? total_size)%N then
    match truediv_pow2 total_size 20 with
    | inl e => inl e
    | inr v => inr (format_2f v ++ " MB")%string
    end
  else
    match truediv_pow2 total_size 10 with
    | inl e => inl e
    | inr v => inr (format_2f v ++ " KB")%string
    end.

(** ** The script *)

Section Script.

Variable uni_decimal : N -> bool.
Variable rich : message -> option exn.

(** The body of [for file in files], on the list being accumulated;
    [full_path] is [Path(root) / file]. *)
Definition scan_file (verbose : bool) (root : path) (file : pystr)
    (conflict_list : list path) : M (list path) :=
  let full_path := root ++ [file] in
  if conflict_search uni_decimal file then
    let conflict_list' := conflict_list ++ [full_path] in
    (if verbose then print rich (Found_conflict_file full_path) else ret tt) ;;
    ret conflict_list'
  else if verbose then
    print rich (Skipping_file full_path) ;; ret conflict_list
  else ret conflict_list.

Fixpoint scan_files (verbose : bool) (root : path) (files : list pystr)
    (conflict_list : list path) : M (list path) :=
  match files with
  | [] => ret conflict_list
  | file :: rest =>
      conflict_list' <- scan_file verbose root file conflict_list ;;
      scan_files verbose root rest conflict_list'
  end.

(** The loop over what [os.walk] yields, under the progress bar. *)
Fixpoint scan_dirs (verbose : bool) (items : list (path * list pystr * list pystr))
    (conflict_list : list path) : M (list path) :=
  match items with
  | [] => ret conflict_list
  | (root, _, files) :: rest =>
      conflict_list' <- scan_files verbose root files conflict_list ;;
      emit Tqdm_update ;;
      scan_dirs verbose rest conflict_list'
  end.

(** [os.walk] is a generator, read as the loop goes; the loop changes
    nothing in the tree, so what it yields is the walk of the tree found on
    entry.  An exception leaves the loop and the function at once. *)
Definition find_files (dir : path) (verbose : bool) : M (list path) :=
  tree <- get_fs ;;
  emit (Tqdm_open dir) ;;
  conflict_list <- scan_dirs verbose (os_walk dir tree) [] ;;
  emit Tqdm_close ;;
  ret conflict_list.

(** The [try] covers the call and the report of success; the handler
    reports the path with the exception, and is itself not covered. *)
Definition remove_files (files : list path) : M unit :=
  for_each files (fun file =>
    try_except
      (os_remove file ;; print rich (Removed_file file))
      (fun e => print rich (Error_removing_file file e))).

(** *** The summary line *)

(** [sum(f.stat().st_size for f in conflict_list)]: the generator stops at
    the first [stat] that raises. *)
Fixpoint sum_sizes (files : list path) (acc : N) : M N :=
  match files with
  | [] => ret acc
  | f :: rest =>
      sz <- stat_st_size f ;;
      sum_sizes rest (acc + sz)%N
  end.

(** *** The [__main__] block, after [parse_args] *)

(** [Path(args.dir) if args.dir else Path('.')]: the tree is the one rooted
    at the working directory, so [Path('.')] has no parts. *)
Definition target_dir (args_dir : option path) : path :=
  match args_dir with
  | Some d => d
  | None => []
  end.

(** [not dir.exists() or not dir.is_dir()]: the second test is made only
    when the first one gives [True]. *)
Definition not_a_directory (dir : path) : M bool :=
  e <- exists_ dir ;;
  if negb e then ret true
  else d <- is_dir dir ;; ret (negb d).

(** The body of [if len(conflict_list) > 0]. *)
Definition report_and_confirm (conflict_list : list path) : M unit :=
  print rich (Listing conflict_list) ;;
  total_size <- sum_sizes conflict_list 0%N ;;
  match total_size_str total_size with
  | inl e => raise e
  | inr size_str =>
      user_input <- input (List.length conflict_list) size_str ;;
      if pystr_eqb user_input (lit "y") then
        remove_files conflict_list
      else
        print rich Aborting_file_removal
  end.

Definition main (args_dir : option path) (args_verbose : bool) : M unit :=
  let dir := target_dir args_dir in
  bad <- not_a_directory dir ;;
  if bad then
    print rich (Directory_does_not_exist dir) ;;
    exit 1%Z
  else
    conflict_list <- find_files dir args_verbose ;;
    print rich (Found_n_conflict_files (List.length conflict_list)) ;;
    if (0 <? List.length conflict_list)%nat then
      report_and_confirm conflict_list
    else ret tt.

End Script.

(** ** Reference readings *)



(** [m] run in [w] returns [a]. *)
Definition returns {A} (m : M A) (w : world) (a : A) : Prop :=
  exists w', m w = (Ok a, w').

(** The scan as a function of what the walk yields: the matching names of
    each directory, in order, under that directory's path. *)
Definition conflict_paths (uni_decimal : N -> bool)
    (items : list (path * list pystr * list pystr)) : list path :=
  flat_map (fun it => map (fun file => fst (fst it) ++ [file])
                          (filter (conflict_search uni_decimal) (snd it))) items.

(** The line verbose mode prints for one file. *)
Definition file_line (uni_decimal : N -> bool) (root : path) (file : pystr) : event :=
  if conflict_search uni_decimal file
  then Print (Found_conflict_file (root ++ [file]))
  else Print (Skipping_file (root ++ [file])).

Definition verbose_lines (uni_decimal : N -> bool) (verbose : bool)
    (root : path) (files : list pystr) : list event :=
  if verbose then map (file_line uni_decimal root) files else [].

(** What the loop of the scan has to write. *)
Definition scan_log (uni_decimal : N -> bool) (verbose : bool)
    (items : list (path * list pystr * list pystr)) : list event :=
  flat_map (fun it => verbose_lines uni_decimal verbose (fst (fst it)) (snd it)
                      ++ [Tqdm_update]) items.

(** Writing a piece of trace: the events up to the first line that
    [rich.print] refuses, and the exception it raises there. *)
Fixpoint run_log (rich : message -> option exn) (tr : list event)
    : list event * option exn :=
  match tr with
  | [] => ([], None)
  | ev :: t =>
      match ev with
      | Print m =>
          match print_outcome rich m with
          | Some e => ([], Some e)
          | None => let '(done, r) := run_log rich t in (ev :: done, r)
          end
      | _ => let '(done, r) := run_log rich t in (ev :: done, r)
      end
  end.

(** The outcome of a loop that has [log] to write and, if that goes
    through, returns [a]. *)
Definition written {A} (rich : message -> option exn) (log : list event)
    (a : A) (w : world) : result A * world :=
  (match snd (run_log rich log) with
   | None => Ok a
   | Some e => Raise e
   end,
   mk_world (fs w) (stdin w) (trace w ++ fst (run_log rich log))).

(** Every line of the piece of trace is one that [rich.print] writes. *)
Definition lines_print (rich : message -> option exn) (tr : list event) : bool :=
  forallb (fun ev => match ev with Print m => prints rich m | _ => true end) tr.

(** The paths handed to [os.remove] in a trace, in order. *)
Definition removed_paths (tr : list event) : list path :=
  flat_map (fun ev => match ev with Remove p => [p] | _ => [] end) tr.

(** The prompts shown in a trace. *)
Definition prompts (tr : list event) : list (nat * string) :=
  flat_map (fun ev => match ev with Input n s => [(n, s)] | _ => [] end) tr.


(** The paths handed to [stat]. *)
Definition stats (tr : list event) : list path :=
  flat_map (fun ev => match ev with Stat p => [p] | _ => [] end) tr.




(** Console output, as opposed to calls on the file system or standard input. *)
Definition is_console (ev : event) : bool :=
  match ev with
  | Tqdm_open _ | Tqdm_update | Tqdm_close | Print _ => true
  | Stat _ | Input _ _ | Remove _ => false
  end.

(** A stretch of trace with no prompt and no call to [os.remove]. *)
Definition quiet (tr : list event) : Prop :=
  prompts tr = [] /\ removed_paths tr = [].

(** Everything a scan that returns has written. *)
Definition scan_trace (uni_decimal : N -> bool) (dir : path) (verbose : bool)
    (tree : node) : list event :=
  Tqdm_open dir :: scan_log uni_decimal verbose (os_walk dir tree) ++ [Tqdm_close].


(** [l] is an initial segment of [l']. *)
Definition is_prefix {A} (l l' : list A) : Prop := exists r, l' = l ++ r.


(** Every name the walk hands to the scanner, under its directory. *)
Definition visited_files (items : list (path * list pystr * list pystr)) : list path :=
  flat_map (fun it => map (fun file => fst (fst it) ++ [file]) (snd it)) items.

(** *** The tree *)

(** Names are unique within a directory, all the way down. *)
Fixpoint distinct (l : list pystr) : bool :=
  match l with
  | [] => true
  | x :: t => negb (existsb (pystr_eqb x) t) && distinct t
  end.

Fixpoint well_formed (n : node) : bool :=
  match n with
  | Dir _ es => distinct (map fst es) && forallb (fun e => well_formed (snd e)) es
  | _ => true
  end.

(** [visited top rel d]: going down [rel] from the directory [top] only
    passes directories (no links) that can be listed and searched, and ends
    in [d], which can be listed.  These are the directories the walk
    yields. *)
Inductive visited : node -> path -> node -> Prop :=
| visited_top a es :
    readable a = true -> visited (Dir a es) [] (Dir a es)
| visited_sub a es name a' es' rel d :
    readable a = true -> searchable a = true ->
    In (name, Dir a' es') es -> visited (Dir a' es') rel d ->
    visited (Dir a es) (name :: rel) d.

(** [listed top rel name c]: [c] is the entry called [name] of a visited
    directory at [rel]. *)
Definition listed (top : node) (rel : path) (name : pystr) (c : node) : Prop :=
  exists a es, visited top rel (Dir a es) /\ In (name, c) es.


(** What the walk yields for one entry of a directory it has listed: the
    walk of the entry when it is a directory, nothing otherwise. *)
Definition enter (root : node) (top : path) (e : pystr * node)
    : list (path * list pystr * list pystr) :=
  match snd e with
  | Dir _ _ => walk root (top ++ [fst e]) (snd e)
  | _ => []
  end.

(** [dir] resolves to a directory that can be listed. *)
Definition listable (dir : path) (tree : node) : bool :=
  match resolve tree dir with
  | inr (_, Dir a _) => readable a
  | _ => false
  end.

(** An induction principle that reaches through the entries. *)
Section NodeInduction.

Variable P : node -> Prop.
Hypothesis P_file : forall sz, P (File sz).
Hypothesis P_link : forall tgt, P (Symlink tgt).
Hypothesis P_dir : forall a es, Forall (fun e => P (snd e)) es -> P (Dir a es).

Fixpoint node_induction (n : node) : P n :=
  match n with
  | File sz => P_file sz
  | Symlink tgt => P_link tgt
  | Dir a es =>
      P_dir a es
        ((fix entries_induction (l : list (pystr * node))
            : Forall (fun e => P (snd e)) l :=
            match l with
            | [] => Forall_nil _
            | e :: l' =>
                Forall_cons e (node_induction (snd e)) (entries_induction l')
            end) es)
  end.

End NodeInduction.

(** *** The removal loop *)

(** The tree after one attempted [os.remove]. *)
Definition after_remove (tree : node) (file : path) : node :=
  match unlink file tree with
  | inl _ => tree
  | inr tree' => tree'
  end.

(** [f] applied to the entry called [name]. *)
Fixpoint update_assoc (name : pystr) (f : node -> node)
    (es : list (pystr * node)) : list (pystr * node) :=
  match es with
  | [] => []
  | (k, v) :: t =>
      if pystr_eqb k name then (k, f v) :: t else (k, v) :: update_assoc name f t
  end.

(** [at_] without its initial segment [cur], when it has it. *)
Fixpoint strip (cur at_ : path) : option path :=
  match cur with
  | [] => Some at_
  | k :: cur' =>
      match at_ with
      | k' :: at' => if pystr_eqb k' k then strip cur' at' else None
      | [] => None
      end
  end.

(** What the node found at the real path [cur] has become once the entry
    [name] of the directory at the real path [at_] is removed. *)
Definition after_removal (at_ : path) (name : pystr) (cur : path) (n : node)
    : node :=
  match strip cur at_ with
  | Some r => remove_at r name n
  | None => n
  end.





(** One iteration as it goes: the call; the report of success, or, when
    the call or that report raised, the report of the exception; the
    exception of this last report leaves the loop. *)
Definition removal_step (rich : message -> option exn) (tree : node)
    (file : path) : list event * option exn :=
  let report_error e :=
    match print_outcome rich (Error_removing_file file e) with
    | None => ([Remove file; Print (Error_removing_file file e)], None)
    | Some e' => ([Remove file], Some e')
    end in
  match unlink file tree with
  | inl e => report_error e
  | inr _ =>
      match print_outcome rich (Removed_file file) with
      | None => ([Remove file; Print (Removed_file file)], None)
      | Some e => report_error e
      end
  end.

(** The loop as it goes: what it writes, how it ends, the tree it leaves. *)
Fixpoint removal_run (rich : message -> option exn) (files : list path)
    (tree : node) : list event * option exn * node :=
  match files with
  | [] => ([], None, tree)
  | file :: rest =>
      match removal_step rich tree file with
      | (evs, Some e) => (evs, Some e, after_remove tree file)
      | (evs, None) =>
          let '(evs', r, tree') :=
            removal_run rich rest (after_remove tree file) in
          (evs ++ evs', r, tree')
      end
  end.

(** *** The summary line *)

(** Two decimals, from a value in hundredths. *)
Definition fixed2 (h : N) : string :=
  (dec (h / 100) ++ "." ++ dec ((h mod 100) / 10) ++ dec (h mod 10))%string.

(** [h] is the integer nearest to [num / den], the even one on a tie. *)
Definition nearest_even (h num den : N) : Prop :=
  (2 * (den * h) <= 2 * num + den)%N
  /\ (2 * num <= 2 * (den * h) + den)%N
  /\ ((2 * (den * h) = 2 * num + den \/ 2 * num = 2 * (den * h) + den)%N ->
      N.even h = true).

(** *** Sample parameters, names and trees *)

(** The digit table with nothing beyond ASCII, to run the script on names
    written in ASCII, where the table is not consulted. *)
Definition ascii_only (_ : N) : bool := false.

Definition strict (_ : message) : option exn := Some UnicodeEncodeError.

Definition rw : dirattr := mk_dirattr true true true (fun _ => 4096%N).

(** A directory that may not be listed. *)
Definition no_read : dirattr := mk_dirattr false true true (fun _ => 4096%N).

(** A directory that may be listed but not searched. *)
Definition no_search : dirattr := mk_dirattr true true false (fun _ => 4096%N).

Definition marked_v2 : pystr := lit "report # Edit conflict 2024-01-15 v2 #.docx".
Definition marked_phone : pystr := lit "notes # Edit conflict 2023-12-31 phone #.md".
Definition single_space : pystr := lit "doc # Edit conflict 2024-01-15 #.txt".
Definition double_space : pystr := lit "doc # Edit conflict 2024-01-15  #.txt".
Definition with_line_feed : pystr :=
  lit "doc # Edit conflict 2024-01-15 a" ++ [10%N] ++ lit "b #.txt".

(** Two marked files of 500 KB and 600 KB, one of them a level down. *)
Definition sample_tree : node :=
  Dir rw [ (marked_v2, File 512000);
           (lit "report_final.docx", File 10);
           (lit "sub", Dir rw [ (marked_phone, File 614400) ]) ].

(** A dangling link with a marked name, and a marked file in a directory
    that may not be listed. *)
Definition dangling_tree : node :=
  Dir rw [ (marked_v2, Symlink [lit "nowhere"]);
           (lit "private", Dir no_read [ (marked_v2, File 7) ]) ].

Definition single_space_tree : node :=
  Dir rw [ (single_space, File 1); (double_space, File 1);
           (with_line_feed, File 1) ].



(** ** Properties of the pattern matcher *)

Lemma pystr_eqb_eq a b : pystr_eqb a b = true <-> a = b.
Proof.
  unfold pystr_eqb. destruct (list_eq_dec N.eq_dec a b); split; congruence.
Qed.

Lemma pystr_eqb_refl a : pystr_eqb a a = true.
Proof. now apply pystr_eqb_eq. Qed.

Section RegexFacts.

Variable uni : N -> bool.

Abbreviation matches := (matches uni).
Abbreviation der := (der uni).
Abbreviation in_class := (in_class uni).

Lemma nullable_matches r : nullable r = true <-> matches r [].
Proof.
  split.
  - induction r; simpl; intros H; try discriminate.
    + constructor.
    + apply andb_true_iff in H as [H1 H2].
      change (@nil N) with (@nil N ++ []). constructor; auto.
    + apply orb_true_iff in H as [H|H]; [apply M_alt_l | apply M_alt_r]; auto.
    + constructor.
  - intros H. remember [] as w eqn:E.
    induction H; simpl; try discriminate; auto.
    + apply app_eq_nil in E as [-> ->]. now rewrite IHmatches1, IHmatches2.
    + now rewrite IHmatches.
    + rewrite IHmatches by assumption. apply orb_true_r.
Qed.

Lemma der_sound c r s : matches (der c r) s -> matches r (c :: s).
Proof.
  revert s. induction r; simpl; intros s H.
  - inversion H.
  - inversion H.
  - destruct (in_class k c) eqn:E; inversion H; subst. now constructor.
  - destruct (nullable r1) eqn:E.
    + inversion H; subst.
      * match goal with X : matches (RCat _ _) _ |- _ => inversion X; subst end.
        change (c :: u ++ v) with ((c :: u) ++ v). constructor; auto.
      * change (c :: s) with ([] ++ c :: s). constructor; auto.
        now apply nullable_matches.
    + inversion H; subst.
      change (c :: u ++ v) with ((c :: u) ++ v). constructor; auto.
  - inversion H; subst; [apply M_alt_l | apply M_alt_r]; auto.
  - inversion H; subst.
    change (c :: u ++ v) with ((c :: u) ++ v). constructor; auto.
Qed.

Lemma der_complete c r s : matches r (c :: s) -> matches (der c r) s.
Proof.
  intros H. remember (c :: s) as w eqn:E. revert s E.
  induction H; intros s0 E; simpl; try discriminate.
  - injection E as -> <-. rewrite H. constructor.
  - destruct u as [|c' u'].
    + simpl in E. subst v.
      apply nullable_matches in H. rewrite H. apply M_alt_r. auto.
    + simpl in E. injection E as -> <-.
      destruct (nullable r).
      * apply M_alt_l. constructor; auto.
      * constructor; auto.
  - apply M_alt_l. auto.
  - apply M_alt_r. auto.
  - destruct u as [|c' u'].
    + simpl in E. auto.
    + simpl in E. injection E as -> <-. constructor; auto.
Qed.

Lemma match_here_spec r s :
  match_here uni r s = true <-> exists u v, s = u ++ v /\ matches r u.
Proof.
  revert r. induction s as [|c t IH]; intros r; simpl.
  - rewrite orb_false_r, nullable_matches. split.
    + intros H. now exists [], [].
    + intros (u & v & E & H). symmetry in E.
      apply app_eq_nil in E as [-> _]. exact H.
  - rewrite orb_true_iff, IH, nullable_matches. split.
    + intros [H | (u & v & -> & H)].
      * now exists [], (c :: t).
      * exists (c :: u), v. split; [reflexivity | now apply der_sound].
    + intros (u & v & E & H). destruct u as [|c' u'].
      * now left.
      * simpl in E. injection E as <- ->. right.
        exists u', v. split; [reflexivity | now apply der_complete].
Qed.

Lemma search_spec r s :
  search uni r s = true <->
  exists pre u post, s = pre ++ u ++ post /\ matches r u.
Proof.
  induction s as [|c t IH]; cbn [search].
  - rewrite orb_false_r, match_here_spec. split.
    + intros (u & v & E & H). now exists [], u, v.
    + intros (pre & u & post & E & H). symmetry in E.
      apply app_eq_nil in E as [-> E]. exists u, post. now split.
  - rewrite orb_true_iff, IH, match_here_spec. split.
    + intros [(u & v & E & H) | (pre & u & post & -> & H)].
      * now exists [], u, v.
      * now exists (c :: pre), u, post.
    + intros (pre & u & post & E & H). destruct pre as [|c' pre'].
      * left. now exists u, post.
      * simpl in E. injection E as <- ->. right. now exists pre', u, post.
Qed.






End RegexFacts.

Section MarkerFacts.

Variable uni : N -> bool.



End MarkerFacts.


(** ** Writing to the console *)

Lemma print_run rich m w :
  print rich m w =
  match print_outcome rich m with
  | None => (Ok tt, mk_world (fs w) (stdin w) (trace w ++ [Print m]))
  | Some e => (Raise e, w)
  end.
Proof. unfold print. destruct (print_outcome rich m); reflexivity. Qed.

Lemma prints_outcome rich m : prints rich m = true <-> print_outcome rich m = None.
Proof. unfold prints. destruct (print_outcome rich m); split; congruence. Qed.

(** A message [rich] sees no markup and no foreign character in is written
    on every console. *)
Lemma surely_printed_prints rich m : surely_printed m = true -> prints rich m = true.
Proof. intros H. unfold prints, print_outcome. now rewrite H. Qed.

Lemma world_eta w : mk_world (fs w) (stdin w) (trace w) = w.
Proof. now destruct w. Qed.

Lemma run_log_app rich a b :
  run_log rich (a ++ b) =
  match run_log rich a with
  | (done, Some e) => (done, Some e)
  | (done, None) => let '(done', r) := run_log rich b in (done ++ done', r)
  end.
Proof.
  induction a as [|ev t IH]; cbn [app run_log].
  - now destruct (run_log rich b).
  - assert (G : (let '(done, r) := run_log rich (t ++ b) in (ev :: done, r)) =
                match (let '(done, r) := run_log rich t in (ev :: done, r)) with
                | (done, Some e) => (done, Some e)
                | (done, None) =>
                    let '(done', r) := run_log rich b in (done ++ done', r)
                end).
    { rewrite IH. destruct (run_log rich t) as [d [e|]]; [reflexivity|].
      now destruct (run_log rich b). }
    destruct ev; try exact G.
    destruct (print_outcome rich m); [reflexivity | exact G].
Qed.

Lemma lines_print_app rich a b :
  lines_print rich (a ++ b) = lines_print rich a && lines_print rich b.
Proof. apply forallb_app. Qed.

(** When every line prints the whole piece is written. *)
Lemma run_log_ok rich tr :
  lines_print rich tr = true -> run_log rich tr = (tr, None).
Proof.
  induction tr as [|ev t IH]; [reflexivity|]. cbn [lines_print forallb run_log].
  intros H. apply andb_true_iff in H as [H1 H2]. fold (lines_print rich t) in H2.
  rewrite (IH H2). destruct ev; try reflexivity.
  apply prints_outcome in H1. now rewrite H1.
Qed.

(** Otherwise the writing stops short with an exception. *)
Lemma run_log_fails rich tr :
  lines_print rich tr = false ->
  exists done e rest, run_log rich tr = (done, Some e) /\ tr = done ++ rest
                      /\ lines_print rich done = true.
Proof.
  induction tr as [|ev t IH]; [discriminate|]. cbn [lines_print forallb run_log].
  intros H. apply andb_false_iff in H. fold (lines_print rich t) in H.
  assert (G : lines_print rich t = false ->
              (forall m, ev = Print m -> prints rich m = true) ->
              exists done e rest,
                (let '(done, r) := run_log rich t in (ev :: done, r)) = (done, Some e)
                /\ ev :: t = done ++ rest /\ lines_print rich done = true).
  { intros Ht Hev. destruct (IH Ht) as (done & e & rest & -> & -> & L).
    exists (ev :: done), e, rest. repeat split.
    cbn [lines_print forallb]. fold (lines_print rich done). rewrite L.
    destruct ev; try reflexivity. now rewrite (Hev m eq_refl). }
  destruct ev;
    try (destruct H as [H|H]; [discriminate | apply (G H); intros; discriminate]).
  destruct (print_outcome rich m) as [e|] eqn:E.
  - exists [], e, (Print m :: t). now repeat split.
  - destruct H as [H|H].
    + unfold prints in H. rewrite E in H. discriminate.
    + apply (G H). intros m' [= <-]. now apply prints_outcome.
Qed.

Lemma run_log_outcome rich tr :
  snd (run_log rich tr) = None <-> lines_print rich tr = true.
Proof.
  split.
  - intros H. destruct (lines_print rich tr) eqn:L; [reflexivity|].
    destruct (run_log_fails rich tr L) as (done & e & rest & R & _).
    rewrite R in H. discriminate.
  - intros L. now rewrite (run_log_ok rich tr L).
Qed.

(** ** Runs of the scanner *)

Section Runs.

Variable uni : N -> bool.
Variable rich : message -> option exn.

Lemma written_nil {A} (a : A) w : written rich [] a w = (Ok a, w).
Proof. unfold written. cbn. now rewrite app_nil_r, world_eta. Qed.

Lemma scan_files_run verbose root files conflict_list w :
  scan_files uni rich verbose root files conflict_list w =
  written rich (verbose_lines uni verbose root files)
          (conflict_list
           ++ map (fun file => root ++ [file]) (filter (conflict_search uni) files))
          w.
Proof.
  revert conflict_list w.
  induction files as [|file rest IH]; intros conflict_list w.
  - cbn [scan_files filter map]. rewrite app_nil_r.
    unfold verbose_lines. destruct verbose; cbn [map]; now rewrite written_nil.
  - cbn [scan_files filter map]. unfold bind at 1. unfold scan_file.
    unfold verbose_lines in *. destruct verbose.
    + cbn [map].
      assert (FL : file_line uni root file =
                   Print (if conflict_search uni file
                          then Found_conflict_file (root ++ [file])
                          else Skipping_file (root ++ [file])))
        by (unfold file_line; now destruct (conflict_search uni file)).
      rewrite FL. unfold written. cbn [run_log].
      destruct (conflict_search uni file) eqn:E; unfold bind at 1;
        rewrite print_run;
        destruct (print_outcome rich _) as [e|];
        try (cbn [fst snd app]; now rewrite app_nil_r, world_eta);
        unfold ret; rewrite IH; unfold written; cbn [fs stdin trace];
        destruct (run_log rich (map (file_line uni root) rest)) as [done r];
        cbn [fst snd map app]; rewrite <- !app_assoc; reflexivity.
    + destruct (conflict_search uni file) eqn:E; unfold bind, ret;
        rewrite IH; cbn [map]; rewrite <- ?app_assoc; reflexivity.
Qed.

Lemma scan_dirs_run verbose items conflict_list w :
  scan_dirs uni rich verbose items conflict_list w =
  written rich (scan_log uni verbose items)
          (conflict_list ++ conflict_paths uni items) w.
Proof.
  revert conflict_list w.
  induction items as [|[[root dirs] files] rest IH]; intros conflict_list w.
  - cbn [scan_dirs conflict_paths scan_log flat_map].
    now rewrite written_nil, app_nil_r.
  - cbn [scan_dirs]. unfold bind at 1. rewrite scan_files_run.
    unfold written.
    cbn [scan_log conflict_paths flat_map fst snd].
    fold (scan_log uni verbose rest). fold (conflict_paths uni rest).
    rewrite !run_log_app.
    destruct (run_log rich (verbose_lines uni verbose root files)) as [d [e|]];
      cbn [fst snd]; [reflexivity|].
    unfold bind at 1. cbn [emit fs stdin trace run_log].
    rewrite IH. unfold written. cbn [fs stdin trace].
    destruct (run_log rich (scan_log uni verbose rest)) as [d' r].
    cbn [fst snd app]. now rewrite <- !app_assoc.
Qed.

(** [find_files] in full: it writes the bar and the lines of the scan up
    to the first line that is refused, and returns the scan of the walk if
    none is; it leaves the tree and standard input alone. *)
Lemma find_files_run dir verbose w :
  find_files uni rich dir verbose w =
  let log := scan_log uni verbose (os_walk dir (fs w)) in
  match snd (run_log rich log) with
  | None =>
      (Ok (conflict_paths uni (os_walk dir (fs w))),
       mk_world (fs w) (stdin w)
                (trace w ++ Tqdm_open dir :: log ++ [Tqdm_close]))
  | Some e =>
      (Raise e,
       mk_world (fs w) (stdin w)
                (trace w ++ Tqdm_open dir :: fst (run_log rich log)))
  end.
Proof.
  unfold find_files, get_fs. unfold bind at 1. unfold bind at 1.
  cbn [emit]. unfold bind at 1. rewrite scan_dirs_run. cbv zeta.
  unfold written. cbn [fs stdin trace app].
  destruct (snd (run_log rich _)) as [e|] eqn:E.
  - now rewrite <- app_assoc.
  - apply run_log_outcome in E. rewrite (run_log_ok rich _ E).
    cbn [fst bind emit ret fs stdin trace]. now rewrite <- !app_assoc.
Qed.

(** When the lines of the scan print, it returns. *)
Lemma find_files_ok dir verbose w :
  lines_print rich (scan_log uni verbose (os_walk dir (fs w))) = true ->
  find_files uni rich dir verbose w =
  (Ok (conflict_paths uni (os_walk dir (fs w))),
   mk_world (fs w) (stdin w) (trace w ++ scan_trace uni dir verbose (fs w))).
Proof.
  intros L. rewrite find_files_run. cbv zeta.
  apply run_log_outcome in L. now rewrite L.
Qed.

(** A scan that returns has printed its lines and returns the scan of the
    walk. *)
Lemma find_files_returned dir verbose w l :
  returns (find_files uni rich dir verbose) w l ->
  lines_print rich (scan_log uni verbose (os_walk dir (fs w))) = true
  /\ l = conflict_paths uni (os_walk dir (fs w)).
Proof.
  intros [w' R]. rewrite find_files_run in R. cbv zeta in R.
  destruct (snd (run_log rich _)) as [e|] eqn:E; [discriminate|].
  apply run_log_outcome in E. split; [exact E | congruence].
Qed.

(** Without [verbose] the scan prints no line. *)
Lemma lines_print_quiet items : lines_print rich (scan_log uni false items) = true.
Proof.
  induction items as [|it t IH]; [reflexivity|].
  cbn [scan_log flat_map]. fold (scan_log uni false t).
  now rewrite !lines_print_app, IH.
Qed.

(** The lines of the scan print when the paths of the visited files are
    plain text. *)
Lemma lines_print_plain verbose items :
  Forall (fun p => is_plain (path_text p) = true) (visited_files items) ->
  lines_print rich (scan_log uni verbose items) = true.
Proof.
  destruct verbose; [|intros _; apply lines_print_quiet].
  induction items as [|[[root dirs] files] t IH]; [reflexivity|].
  cbn [visited_files scan_log flat_map fst snd]. fold (visited_files t).
  fold (scan_log uni true t). intros F. apply Forall_app in F as [F1 F2].
  rewrite !lines_print_app, (IH F2), andb_true_r.
  apply andb_true_iff. split; [|reflexivity].
  apply forallb_forall. intros ev Hin. unfold verbose_lines in Hin.
  apply in_map_iff in Hin as (f & <- & Hf). rewrite Forall_forall in F1.
  assert (P : is_plain (path_text (root ++ [f])) = true).
  { apply F1. apply in_map_iff. now exists f. }
  unfold file_line. destruct (conflict_search uni f);
    apply surely_printed_prints; exact P.
Qed.

End Runs.

(** ** Runs of the remover *)

Section RemoverRuns.

Variable rich : message -> option exn.

Lemma os_remove_run file w :
  os_remove file w =
  match unlink file (fs w) with
  | inl e => (Raise e, mk_world (fs w) (stdin w) (trace w ++ [Remove file]))
  | inr tree' => (Ok tt, mk_world tree' (stdin w) (trace w ++ [Remove file]))
  end.
Proof.
  unfold os_remove, bind, emit. cbn [fs stdin trace].
  destruct (unlink file (fs w)); reflexivity.
Qed.

(** One iteration of the removal loop. *)
Lemma remove_one_run file w :
  try_except (os_remove file ;; print rich (Removed_file file))
             (fun e => print rich (Error_removing_file file e)) w =
  (match snd (removal_step rich (fs w) file) with
   | None => Ok tt
   | Some e => Raise e
   end,
   mk_world (after_remove (fs w) file) (stdin w)
            (trace w ++ fst (removal_step rich (fs w) file))).
Proof.
  unfold try_except, bind. rewrite os_remove_run.
  unfold after_remove, removal_step.
  destruct (unlink file (fs w)) as [e|tree'].
  - rewrite print_run. cbn [fs stdin trace].
    destruct (print_outcome rich (Error_removing_file file e)); cbn [fst snd];
      now rewrite <- ?app_assoc.
  - rewrite print_run. cbn [fs stdin trace].
    destruct (print_outcome rich (Removed_file file)) as [e|].
    + rewrite print_run. cbn [fs stdin trace].
      destruct (print_outcome rich (Error_removing_file file e)); cbn [fst snd];
        now rewrite <- ?app_assoc.
    + cbn [fst snd]. now rewrite <- app_assoc.
Qed.

(** The loop in full. *)
Lemma remove_files_run files w :
  remove_files rich files w =
  let '(evs, r, tree') := removal_run rich files (fs w) in
  (match r with
   | None => Ok tt
   | Some e => Raise e
   end,
   mk_world tree' (stdin w) (trace w ++ evs)).
Proof.
  unfold remove_files. revert w.
  induction files as [|file rest IH]; intros w.
  - cbn. unfold ret. now rewrite app_nil_r, world_eta.
  - cbn [for_each removal_run]. unfold bind at 1.
    rewrite remove_one_run.
    destruct (removal_step rich (fs w) file) as [evs [e|]]; cbn [fst snd];
      [reflexivity|].
    rewrite IH. cbn [fs stdin trace].
    destruct (removal_run rich rest (after_remove (fs w) file)) as [[evs' r] tree'].
    now rewrite <- app_assoc.
Qed.



(** An iteration calls [os.remove] once, on its path, whatever follows. *)
Lemma removal_step_calls tree file :
  removed_paths (fst (removal_step rich tree file)) = [file]
  /\ prompts (fst (removal_step rich tree file)) = []
  /\ stats (fst (removal_step rich tree file)) = [].
Proof.
  unfold removal_step.
  destruct (unlink file tree) as [e|].
  - destruct (print_outcome rich (Error_removing_file file e)); now repeat split.
  - destruct (print_outcome rich (Removed_file file)) as [e|]; [|now repeat split].
    destruct (print_outcome rich (Error_removing_file file e)); now repeat split.
Qed.

(** In every case the loop calls [os.remove] on an initial segment of the
    list, in order; the tree it leaves is what those calls leave; it reads
    nothing and asks nothing.  It has gone through the whole list when it
    returns, and through the first path at least. *)
Lemma removal_run_calls files :
  forall tree evs r tree',
    removal_run rich files tree = (evs, r, tree') ->
    is_prefix (removed_paths evs) files
    /\ tree' = fold_left after_remove (removed_paths evs) tree
    /\ prompts evs = [] /\ stats evs = []
    /\ (r = None -> removed_paths evs = files)
    /\ (files <> [] -> removed_paths evs <> []).
Proof.
  induction files as [|file rest IH]; intros tree evs r tree' R.
  - injection R as <- <- <-. repeat split; try reflexivity.
    + now exists [].
    + congruence.
  - cbn [removal_run] in R.
    destruct (removal_step_calls tree file) as (C & Pr & St).
    destruct (removal_step rich tree file) as [evs0 [e|]]; cbn [fst] in *.
    + injection R as <- <- <-. rewrite C. repeat split; auto.
      * now exists rest.
      * discriminate.
      * discriminate.
    + destruct (removal_run rich rest (after_remove tree file))
        as [[evs1 r1] tree1] eqn:R1.
      injection R as <- <- <-.
      destruct (IH _ _ _ _ R1) as ([rest' E] & T & Pr1 & St1 & Hr & _).
      unfold removed_paths, prompts, stats in *.
      rewrite !flat_map_app, C, Pr, St, Pr1, St1. cbn [app fold_left].
      repeat split; auto.
      * exists rest'. now rewrite E at 1.
      * intros H. now rewrite (Hr H).
      * discriminate.
Qed.


End RemoverRuns.

(** ** Traces *)

Lemma prompts_app a b : prompts (a ++ b) = prompts a ++ prompts b.
Proof. apply flat_map_app. Qed.

Lemma removed_paths_app a b :
  removed_paths (a ++ b) = removed_paths a ++ removed_paths b.
Proof. apply flat_map_app. Qed.


Lemma quiet_nil : quiet [].
Proof. now split. Qed.

Lemma quiet_app a b : quiet a -> quiet b -> quiet (a ++ b).
Proof.
  unfold quiet. intros [Pa Ra] [Pb Rb].
  now rewrite prompts_app, removed_paths_app, Pa, Pb, Ra, Rb.
Qed.

Lemma quiet_cons ev tr : quiet [ev] -> quiet tr -> quiet (ev :: tr).
Proof. intros H1 H2. change (ev :: tr) with ([ev] ++ tr). now apply quiet_app. Qed.

(** Console output holds no prompt and no call to [os.remove]. *)
Lemma quiet_console tr : forallb is_console tr = true -> quiet tr.
Proof.
  induction tr as [|ev t IH]; [intros _; apply quiet_nil|].
  cbn [forallb]. intros H. apply andb_true_iff in H as [H1 H2].
  apply quiet_cons; [|auto]. destruct ev; try discriminate; now split.
Qed.

Lemma quiet_prefix a b : quiet (a ++ b) -> quiet a.
Proof.
  unfold quiet. rewrite prompts_app, removed_paths_app.
  intros [P R]. apply app_eq_nil in P as [P _]. apply app_eq_nil in R as [R _].
  now split.
Qed.

Lemma quiet_stats files : quiet (map Stat files).
Proof.
  induction files as [|f t IH]; [apply quiet_nil|].
  simpl. apply quiet_cons; [now split | exact IH].
Qed.

Lemma console_scan_log uni verbose items :
  forallb is_console (scan_log uni verbose items) = true.
Proof.
  induction items as [|it t IH]; [reflexivity|].
  cbn [scan_log flat_map]. fold (scan_log uni verbose t).
  rewrite !forallb_app, IH, andb_true_r. cbn [forallb is_console].
  rewrite andb_true_r. unfold verbose_lines. destruct verbose; [|reflexivity].
  apply forallb_forall. intros ev Hin. apply in_map_iff in Hin as (f & <- & _).
  unfold file_line. now destruct (conflict_search uni f).
Qed.

Lemma quiet_scan_log uni verbose items : quiet (scan_log uni verbose items).
Proof. apply quiet_console, console_scan_log. Qed.

Lemma quiet_scan_trace uni dir verbose tree : quiet (scan_trace uni dir verbose tree).
Proof.
  unfold scan_trace. apply quiet_cons; [now split|].
  apply quiet_app; [apply quiet_scan_log | now split].
Qed.


(** ** Runs of the main block *)

Section MainRuns.

Variable uni : N -> bool.
Variable rich : message -> option exn.

Lemma stat_st_size_run f w :
  stat_st_size f w =
  (match stat_size f (fs w) with
   | inl e => Raise e
   | inr sz => Ok sz
   end,
   mk_world (fs w) (stdin w) (trace w ++ [Stat f])).
Proof.
  unfold stat_st_size, bind, emit, get_fs, lift. cbn [fs stdin trace].
  destruct (stat_size f (fs w)); reflexivity.
Qed.


(** The sum is not guarded: the first [stat] that raises ends it, with
    nothing but [stat] calls made. *)
Lemma sum_sizes_fails files :
  forall acc w p e,
    In p files -> stat_size p (fs w) = inl e ->
    exists e' done,
      sum_sizes files acc w =
      (Raise e', mk_world (fs w) (stdin w) (trace w ++ map Stat done)).
Proof.
  induction files as [|f rest IH]; intros acc w p e Hin Hp; [contradiction|].
  cbn [sum_sizes]. unfold bind at 1. rewrite stat_st_size_run.
  destruct (stat_size f (fs w)) as [e0|sz] eqn:E.
  - exists e0, [f]. reflexivity.
  - destruct Hin as [->|Hin]; [congruence|].
    destruct (IH (acc + sz)%N
                (mk_world (fs w) (stdin w) (trace w ++ [Stat f])) p e Hin Hp)
      as (e' & done & ->).
    exists e', (f :: done). cbn [fs stdin trace map].
    now rewrite <- app_assoc.
Qed.

Lemma input_run n s w :
  input n s w =
  match stdin w with
  | [] => (Raise EOFError, mk_world (fs w) [] (trace w ++ [Input n s]))
  | line :: rest => (Ok line, mk_world (fs w) rest (trace w ++ [Input n s]))
  end.
Proof.
  unfold input, bind, emit. cbn [fs stdin trace].
  destruct (stdin w); reflexivity.
Qed.

(** The test of the target directory. *)
Lemma not_a_directory_run dir w :
  not_a_directory dir w =
  (match path_exists dir (fs w) with
   | inl e => Raise e
   | inr false => Ok true
   | inr true =>
       match path_is_dir dir (fs w) with
       | inl e => Raise e
       | inr d => Ok (negb d)
       end
   end, w).
Proof.
  unfold not_a_directory, exists_, is_dir, bind, get_fs, lift, ret.
  destruct (path_exists dir (fs w)) as [e|[|]]; cbn [negb]; try reflexivity.
  destruct (path_is_dir dir (fs w)); reflexivity.
Qed.

(** [exists()] and [is_dir()] look at the same [stat]. *)
Lemma path_exists_raises dir tree e :
  path_exists dir tree = inl e <-> path_is_dir dir tree = inl e.
Proof.
  unfold path_is_dir, path_exists.
  destruct (resolve tree dir) as [e0|[at_ [| |]]];
    try (split; discriminate).
  destruct (ignored_error e0); split; congruence.
Qed.

Lemma path_exists_false dir tree :
  path_exists dir tree = inr false -> path_is_dir dir tree = inr false.
Proof.
  unfold path_is_dir, path_exists.
  destruct (resolve tree dir) as [e0|[at_ n]]; [|discriminate].
  destruct (ignored_error e0); congruence.
Qed.

(** The test as a function of [is_dir()] alone. *)
Lemma not_a_directory_is_dir dir w :
  not_a_directory dir w =
  (match path_is_dir dir (fs w) with
   | inl e => Raise e
   | inr d => Ok (negb d)
   end, w).
Proof.
  rewrite not_a_directory_run.
  destruct (path_exists dir (fs w)) as [e|[|]] eqn:E.
  - apply path_exists_raises in E. now rewrite E.
  - reflexivity.
  - apply path_exists_false in E. now rewrite E.
Qed.

(** The main block for a target that is a directory. *)
Lemma main_valid args_dir verbose w :
  path_is_dir (target_dir args_dir) (fs w) = inr true ->
  main uni rich args_dir verbose w =
  (conflict_list <- find_files uni rich (target_dir args_dir) verbose ;;
   print rich (Found_n_conflict_files (List.length conflict_list)) ;;
   if (0 <? List.length conflict_list)%nat then
     report_and_confirm rich conflict_list
   else ret tt) w.
Proof.
  intros D. unfold main. cbv zeta. unfold bind at 1.
  rewrite not_a_directory_is_dir, D. reflexivity.
Qed.

(** The count of matches is always printed. *)
Lemma print_count n w :
  print rich (Found_n_conflict_files n) w =
  (Ok tt, mk_world (fs w) (stdin w) (trace w ++ [Print (Found_n_conflict_files n)])).
Proof. reflexivity. Qed.

Lemma print_abort w :
  print rich Aborting_file_removal w =
  (Ok tt, mk_world (fs w) (stdin w) (trace w ++ [Print Aborting_file_removal])).
Proof. reflexivity. Qed.

(** The main block up to the count of matches, when the scan returns. *)
Lemma main_after_scan args_dir verbose w :
  path_is_dir (target_dir args_dir) (fs w) = inr true ->
  lines_print rich (scan_log uni verbose (os_walk (target_dir args_dir) (fs w)))
  = true ->
  main uni rich args_dir verbose w =
  let dir := target_dir args_dir in
  let conflict_list := conflict_paths uni (os_walk dir (fs w)) in
  let w1 := mk_world (fs w) (stdin w)
              (trace w ++ scan_trace uni dir verbose (fs w)
                       ++ [Print (Found_n_conflict_files (List.length conflict_list))]) in
  if (0 <? List.length conflict_list)%nat then
    report_and_confirm rich conflict_list w1
  else (Ok tt, w1).
Proof.
  intros D L. rewrite (main_valid args_dir verbose w D).
  unfold bind at 1. rewrite (find_files_ok uni rich _ _ _ L).
  unfold bind at 1. rewrite print_count. cbn [fs stdin trace]. cbv zeta.
  rewrite <- !app_assoc.
  destruct (0 <? _)%nat; reflexivity.
Qed.

(** The main block when a line of the scan is refused. *)
Lemma main_scan_fails args_dir verbose w :
  path_is_dir (target_dir args_dir) (fs w) = inr true ->
  lines_print rich (scan_log uni verbose (os_walk (target_dir args_dir) (fs w)))
  = false ->
  exists e done,
    main uni rich args_dir verbose w =
    (Raise e, mk_world (fs w) (stdin w)
                (trace w ++ Tqdm_open (target_dir args_dir) :: done))
    /\ is_prefix done
         (scan_log uni verbose (os_walk (target_dir args_dir) (fs w))).
Proof.
  intros D L. rewrite (main_valid args_dir verbose w D).
  unfold bind at 1. rewrite find_files_run. cbv zeta.
  destruct (run_log_fails rich _ L) as (done & e & rest & R & E & _).
  rewrite R. cbn [fst snd]. exists e, done. split; [reflexivity|].
  now exists rest.
Qed.

(** The part of the main block after the listing is printed. *)
Lemma report_and_confirm_run l w :
  report_and_confirm rich l w =
  match print_outcome rich (Listing l) with
  | Some e => (Raise e, w)
  | None =>
      (total_size <- sum_sizes l 0%N ;;
       match total_size_str total_size with
       | inl e => raise e
       | inr size_str =>
           user_input <- input (List.length l) size_str ;;
           if pystr_eqb user_input (lit "y") then remove_files rich l
           else print rich Aborting_file_removal
       end) (mk_world (fs w) (stdin w) (trace w ++ [Print (Listing l)]))
  end.
Proof.
  unfold report_and_confirm. unfold bind at 1. rewrite print_run.
  destruct (print_outcome rich (Listing l)); reflexivity.
Qed.



End MainRuns.

(** ** Path resolution *)

Lemma namei_nil h root f n cur : namei h root f n cur [] = inr (cur, n).
Proof. destruct h; reflexivity. Qed.

Lemma namei_cons h root f n cur name rest :
  namei h root f n cur (name :: rest) =
  match n with
  | Dir a es =>
      if searchable a then
        match assoc name es with
        | None => inl FileNotFoundError
        | Some (Symlink tgt) =>
            if f || negb (is_nil rest) then
              match h with
              | O => inl TooManyLinks
              | S h' => namei h' root f root [] (tgt ++ rest)
              end
            else inr (cur ++ [name], Symlink tgt)
        | Some c => namei h root f c (cur ++ [name]) rest
        end
      else inl PermissionError
  | _ => inl NotADirectoryError
  end.
Proof. destruct h; reflexivity. Qed.

(** Resolving a longer path goes on from where the shorter one arrived,
    with the links still allowed. *)
Lemma namei_app h root :
  forall n cur p q cur' n',
    namei h root true n cur p = inr (cur', n') ->
    exists h', namei h root true n cur (p ++ q) = namei h' root true n' cur' q.
Proof.
  induction h as [|h IHh]; intros n cur p; revert n cur;
    (induction p as [|name p IHp]; intros n cur q cur' n' H;
     [ rewrite namei_nil in H; injection H as <- <-; eexists; reflexivity
     | cbn [app]; rewrite namei_cons in H |- *;
       destruct n as [sz|tgt|a es]; try discriminate;
       destruct (searchable a); try discriminate;
       destruct (assoc name es) as [[sz|tgt|a' es']|]; try discriminate;
       try (apply IHp; exact H) ]).
  all: cbn [orb] in *; try discriminate.
  rewrite app_assoc. apply IHh. exact H.
Qed.

Lemma distinct_NoDup l : distinct l = true -> NoDup l.
Proof.
  induction l as [|x t IH]; simpl; intros H; constructor.
  - apply andb_true_iff in H as [H _]. apply negb_true_iff in H.
    intros Hin. assert (E : existsb (pystr_eqb x) t = true).
    { apply existsb_exists. exists x. split; [exact Hin | apply pystr_eqb_refl]. }
    congruence.
  - apply andb_true_iff in H as [_ H]. auto.
Qed.

Lemma assoc_distinct name c es :
  NoDup (map fst es) -> In (name, c) es -> assoc name es = Some c.
Proof.
  induction es as [|[k v] t IH]; simpl; intros D H; [contradiction|].
  inversion D as [|? ? Hk Dt]; subst.
  destruct H as [H|H].
  - injection H as -> ->. now rewrite pystr_eqb_refl.
  - destruct (pystr_eqb k name) eqn:E.
    + apply pystr_eqb_eq in E. subst k. exfalso. apply Hk.
      change name with (fst (name, c)). now apply in_map.
    + auto.
Qed.

Lemma assoc_In name c es : assoc name es = Some c -> In (name, c) es.
Proof.
  induction es as [|[k v] t IH]; simpl; [discriminate|].
  destruct (pystr_eqb k name) eqn:E.
  - apply pystr_eqb_eq in E. intros H. injection H as ->. subst. now left.
  - intros H. right. auto.
Qed.

Lemma well_formed_dir a es :
  well_formed (Dir a es) = true ->
  NoDup (map fst es) /\ forall name c, In (name, c) es -> well_formed c = true.
Proof.
  cbn [well_formed]. intros W. apply andb_true_iff in W as [D W]. split.
  - now apply distinct_NoDup.
  - intros name c Hin. rewrite forallb_forall in W. apply (W _ Hin).
Qed.

(** What a path resolves to in a well-formed tree is well-formed. *)
Lemma namei_well_formed h root f :
  well_formed root = true ->
  forall n cur p cur' n',
    well_formed n = true ->
    namei h root f n cur p = inr (cur', n') -> well_formed n' = true.
Proof.
  intros Wr. induction h as [|h IHh]; intros n cur p; revert n cur;
    (induction p as [|name p IHp]; intros n cur cur' n' W H;
     [ rewrite namei_nil in H; injection H as <- <-; exact W
     | rewrite namei_cons in H;
       destruct n as [sz|tgt|a es]; try discriminate;
       destruct (searchable a); try discriminate;
       destruct (assoc name es) as [c|] eqn:A; try discriminate;
       apply assoc_In in A;
       destruct (well_formed_dir a es W) as [_ Wc];
       destruct c as [sz|tgt|a' es'];
       try (eapply IHp; [|exact H]; eapply Wc; exact A) ]).
  - destruct (f || negb (is_nil p)); [discriminate|]. now injection H as <- <-.
  - destruct (f || negb (is_nil p)).
    + eapply IHh; [exact Wr | exact H].
    + now injection H as <- <-.
Qed.

(** Going down through directories that the walk visits meets no link. *)
Lemma namei_visited h root f top rel d :
  visited top rel d -> well_formed top = true ->
  forall cur q,
    namei h root f top cur (rel ++ q) = namei h root f d (cur ++ rel) q.
Proof.
  induction 1 as [a es R|a es name a' es' rel d R X Hin V IH]; intros W cur q.
  - now rewrite app_nil_r.
  - cbn [app]. rewrite namei_cons, X.
    destruct (well_formed_dir a es W) as [D Wc].
    rewrite (assoc_distinct _ _ _ D Hin).
    rewrite (IH (Wc _ _ Hin)). now rewrite <- app_assoc.
Qed.

Lemma visited_well_formed top rel d :
  visited top rel d -> well_formed top = true -> well_formed d = true.
Proof.
  induction 1 as [a es R|a es name a' es' rel d R X Hin V IH]; intros W; [exact W|].
  destruct (well_formed_dir a es W) as [_ Wc]. apply IH. eapply Wc. exact Hin.
Qed.

(** ** Properties of the walk *)

Lemma nondirs_of_In root top name es :
  In name (nondirs_of root top es) <->
  exists c, In (name, c) es /\ entry_is_dir root top (name, c) = false.
Proof.
  unfold nondirs_of. rewrite in_map_iff. split.
  - intros ([k c] & <- & H). apply filter_In in H as [H E]. simpl fst.
    exists c. split; [exact H | now apply negb_true_iff].
  - intros (c & H & E). exists (name, c). split; [reflexivity|].
    apply filter_In. split; [exact H | now rewrite E].
Qed.



(** The test [os.walk] makes before it enters an entry: it is in [dirs]
    and is no link. *)
Lemma enter_as_os_walk root top e :
  enter root top e =
  if entry_is_dir root top e && negb (islink (snd e))
  then walk root (top ++ [fst e]) (snd e) else [].
Proof.
  destruct e as [name [sz|tgt|a es]]; unfold enter, entry_is_dir;
    cbn [fst snd islink negb]; try reflexivity.
  now rewrite andb_false_r.
Qed.

Lemma walk_dir root top a es :
  walk root top (Dir a es) =
  if readable a then
    (top, dirs_of root top es, nondirs_of root top es) ::
    (if searchable a then flat_map (enter root top) es else [])
  else [].
Proof.
  cbn [walk]. destruct (readable a); [|reflexivity]. f_equal.
  destruct (searchable a); [|reflexivity].
  apply flat_map_ext. intros [name c]. unfold enter. cbn [fst snd].
  now destruct c.
Qed.

(** The walk yields exactly the visited directories, each with the names
    of its sub-directories and of its other entries. *)
Lemma walk_spec root n :
  forall top item,
    In item (walk root top n) <->
    exists rel a es,
      visited n rel (Dir a es)
      /\ item = (top ++ rel, dirs_of root (top ++ rel) es,
                 nondirs_of root (top ++ rel) es).
Proof.
  induction n as [sz|tgt|a es IH] using node_induction; intros top item.
  - simpl. split; [contradiction|]. intros (rel & a & es & H & _). inversion H.
  - simpl. split; [contradiction|]. intros (rel & a & es & H & _). inversion H.
  - rewrite walk_dir. destruct (readable a) eqn:R.
    + split.
      * intros [<- | H].
        -- exists [], a, es. split; [now constructor | now rewrite app_nil_r].
        -- destruct (searchable a) eqn:X; [|contradiction].
           apply in_flat_map in H as ([name c] & Hin & H). unfold enter in H.
           cbn [fst snd] in H. destruct c as [sz|tgt|a0 es0]; try contradiction.
           rewrite Forall_forall in IH. apply (IH _ Hin) in H.
           destruct H as (rel & a' & es' & V & ->).
           exists (name :: rel), a', es'. split.
           ++ econstructor; eauto.
           ++ now rewrite <- !app_assoc.
      * intros (rel & a' & es' & V & ->).
        inversion V as [|? ? name a0 es0 rel' ? Hr Hx Hin Vc]; subst.
        -- left. now rewrite app_nil_r.
        -- right. rewrite Hx. apply in_flat_map.
           exists (name, Dir a0 es0). split; [assumption|].
           unfold enter. cbn [fst snd].
           rewrite Forall_forall in IH.
           apply (IH (name, Dir a0 es0)); [assumption|].
           exists rel', a', es'. split; [assumption | now rewrite <- !app_assoc].
    + split; [contradiction|]. intros (rel & a' & es' & V & _).
      inversion V; subst; congruence.
Qed.

Section WalkFacts.

Variable uni : N -> bool.

Lemma conflict_paths_In p items :
  In p (conflict_paths uni items) <->
  exists root ds files file,
    In (root, ds, files) items /\ In file files
    /\ conflict_search uni file = true /\ p = root ++ [file].
Proof.
  unfold conflict_paths. rewrite in_flat_map. split.
  - intros ([[root ds] files] & Hit & H). simpl in H.
    apply in_map_iff in H as (file & <- & H). apply filter_In in H as [H E].
    now exists root, ds, files, file.
  - intros (root & ds & files & file & Hit & H & E & ->).
    exists (root, ds, files). split; [assumption|]. simpl.
    apply in_map_iff. exists file. split; [reflexivity|].
    now apply filter_In.
Qed.


(** The scan of a walk, entry by entry. *)
Lemma scan_of_walk root top n p :
  In p (conflict_paths uni (walk root top n)) <->
  exists rel name c,
    p = top ++ rel ++ [name] /\ listed n rel name c
    /\ entry_is_dir root (top ++ rel) (name, c) = false
    /\ conflict_search uni name = true.
Proof.
  rewrite conflict_paths_In. split.
  - intros (root' & ds & files & file & Hit & H & E & ->).
    apply walk_spec in Hit as (rel & a & es & V & Eq).
    injection Eq as -> -> ->.
    apply nondirs_of_In in H as (c & H & D).
    exists rel, file, c. repeat split; auto.
    + now rewrite <- app_assoc.
    + now exists a, es.
  - intros (rel & name & c & -> & (a & es & V & H) & D & E).
    exists (top ++ rel), (dirs_of root (top ++ rel) es),
      (nondirs_of root (top ++ rel) es), name.
    repeat split; auto.
    + apply walk_spec. now exists rel, a, es.
    + apply nondirs_of_In. now exists c.
    + now rewrite <- app_assoc.
Qed.







End WalkFacts.
(** ** The numbers of the summary line *)

Lemma round_half_even_nearest num den :
  (0 < den)%N -> nearest_even (round_half_even num den) num den.
Proof.
  intros Hden. unfold nearest_even, round_half_even.
  pose proof (N.div_mod' num den) as E.
  assert (Hr : (num mod den < den)%N) by (apply N.mod_lt; lia).
  set (q := (num / den)%N) in *. set (r := (num mod den)%N) in *.
  destruct (2 * r <? den)%N eqn:C1.
  - apply N.ltb_lt in C1. repeat split; try lia.
  - apply N.ltb_ge in C1. destruct (den <? 2 * r)%N eqn:C2.
    + apply N.ltb_lt in C2. rewrite N.mul_add_distr_l, N.mul_1_r.
      repeat split; try lia.
    + apply N.ltb_ge in C2. destruct (N.even q) eqn:Ev.
      * repeat split; try lia. auto.
      * rewrite N.mul_add_distr_l, N.mul_1_r. repeat split; try lia.
        intros _. rewrite N.add_1_r, N.even_succ, <- N.negb_even, Ev.
        reflexivity.
Qed.

Lemma round53_small x : (x < 2 ^ 53)%N -> round53 x = x.
Proof.
  intros H. unfold round53.
  assert (S : (N.size x <= 53)%N).
  { destruct (N.eq_dec x 0) as [->|Hx]; [simpl; lia|].
    rewrite N.size_log2 by assumption.
    apply N.le_succ_l, N.log2_lt_pow2; lia. }
  apply N.leb_le in S. now rewrite S.
Qed.

(** Below 2^53 the division by a power of two is exact. *)
Lemma truediv_pow2_small x k :
  (x < 2 ^ 53)%N -> truediv_pow2 x k = inr (mk_float x k).
Proof.
  intros H. unfold truediv_pow2. rewrite (round53_small x H).
  rewrite N.shiftl_1_l.
  assert (L : (2 ^ 53 <= 2 ^ (1024 + k))%N) by (apply N.pow_le_mono_r; lia).
  assert (F : (2 ^ (1024 + k) <=? x)%N = false) by (apply N.leb_gt; lia).
  now rewrite F.
Qed.

Lemma total_size_str_small total :
  (total < 2 ^ 53)%N ->
  total_size_str total =
  if (1024 ^ 2 <? total)%N
  then inr (fixed2 (round_half_even (100 * total) (2 ^ 20)) ++ " MB")%string
  else inr (fixed2 (round_half_even (100 * total) (2 ^ 10)) ++ " KB")%string.
Proof.
  intros H. unfold total_size_str. rewrite !(truediv_pow2_small _ _ H).
  unfold format_2f, hundredths. cbn [mant scale]. rewrite !N.shiftl_1_l.
  reflexivity.
Qed.

(** ** The decision of the scanner *)



(** * The properties *)

(** ** The scanner *)






(** C9.  With one space between the date and the closing [#] the name is not
    matched; with two it is.  A directory holding both (and a third name
    with a line feed) is scanned to the two-space name alone. *)
Theorem C9_two_spaces_needed uni rich verbose :
  conflict_search uni (lit "doc # Edit conflict 2024-01-15 #.txt") = false
  /\ conflict_search uni (lit "doc # Edit conflict 2024-01-15  #.txt") = true
  /\ returns (find_files uni rich [] verbose) (mk_world single_space_tree [] [])
             [[lit "doc # Edit conflict 2024-01-15  #.txt"]].
Proof.
  split; [|split].
  - vm_compute. reflexivity.
  - vm_compute. reflexivity.
  - eexists. rewrite find_files_ok.
    + reflexivity.
    + apply lines_print_plain. vm_compute. repeat constructor.
Qed.






(** ** The remover *)



(** That run, in full. *)
Example remove_files_around_a_failure :
  remove_files strict [[marked_v2]; [lit "gone"]; [lit "sub"; marked_phone]]
               (mk_world sample_tree [] []) =
  (Ok tt,
   mk_world (Dir rw [ (lit "report_final.docx", File 10); (lit "sub", Dir rw []) ])
            []
            [ Remove [marked_v2]; Print (Removed_file [marked_v2]);
              Remove [lit "gone"];
              Print (Error_removing_file [lit "gone"] FileNotFoundError);
              Remove [lit "sub"; marked_phone];
              Print (Removed_file [lit "sub"; marked_phone]) ]).
Proof. vm_compute. reflexivity. Qed.


(** ** The main block *)



(** That run, in full: a regular file given as target. *)
Example main_on_a_regular_file :
  main ascii_only strict (Some [lit "report_final.docx"]) true
       (mk_world sample_tree [lit "y"] []) =
  (SysExit 1,
   mk_world sample_tree [lit "y"]
     [Print (Directory_does_not_exist [lit "report_final.docx"])]).
Proof. vm_compute. reflexivity. Qed.




(** The answers [Y] and [yes] abort: the tree is left as it was. *)
Example main_aborts_on_other_answers :
  fs (snd (main ascii_only strict None false (mk_world sample_tree [lit "Y"] [])))
  = sample_tree
  /\ fs (snd (main ascii_only strict None false (mk_world sample_tree [lit "yes"] [])))
     = sample_tree
  /\ fs (snd (main ascii_only strict None false (mk_world sample_tree [lit "y"] [])))
     = Dir rw [ (lit "report_final.docx", File 10); (lit "sub", Dir rw []) ].
Proof. vm_compute. repeat split. Qed.

(** C10.  The sizes are summed with no handler around [stat]: when [stat]
    fails on one of the candidates, the run ends with an exception before
    any prompt and before any call to [os.remove]; the tree and standard
    input are as before. *)
Theorem C10_stat_failure_ends_the_run uni rich args_dir verbose w l p e :
  path_exists (target_dir args_dir) (fs w) = inr true ->
  path_is_dir (target_dir args_dir) (fs w) = inr true ->
  returns (find_files uni rich (target_dir args_dir) verbose) w l ->
  In p l ->
  stat_size p (fs w) = inl e ->
  exists e' w' tr,
    main uni rich args_dir verbose w = (Raise e', w')
    /\ fs w' = fs w /\ stdin w' = stdin w /\ trace w' = trace w ++ tr
    /\ prompts tr = [] /\ removed_paths tr = [].
Proof.
  intros _ D R Hin Hp.
  apply find_files_returned in R as [L ->].
  rewrite (main_after_scan uni rich args_dir verbose w D L). cbv zeta.
  set (l := conflict_paths uni (os_walk (target_dir args_dir) (fs w))) in *.
  assert (Len : (0 <? List.length l)%nat = true).
  { destruct l; [contradiction | reflexivity]. }
  rewrite Len, report_and_confirm_run.
  pose proof (quiet_scan_trace uni (target_dir args_dir) verbose (fs w)) as [Qp Qr].
  destruct (print_outcome rich (Listing l)) as [e0|].
  - exists e0. eexists. eexists. split; [reflexivity|]. cbn [fs stdin trace].
    repeat split.
    + now rewrite prompts_app, Qp.
    + now rewrite removed_paths_app, Qr.
  - unfold bind at 1.
    match goal with
    | |- context [sum_sizes l 0%N ?w0] =>
        destruct (sum_sizes_fails l 0%N w0 p e Hin Hp) as (e' & done & ->)
    end.
    cbn [fs stdin trace].
    exists e'. eexists. eexists. split; [reflexivity|]. cbn [fs stdin trace].
    pose proof (quiet_stats done) as [Sp Sr].
    repeat split.
    + rewrite <- !app_assoc. reflexivity.
    + now rewrite !prompts_app, Qp, Sp.
    + now rewrite !removed_paths_app, Qr, Sr.
Qed.

Lemma C10_stat_failure_ends_the_run_witness :
  exists e' w' tr,
    main ascii_only strict None false (mk_world dangling_tree [lit "y"] [])
    = (Raise e', w')
    /\ fs w' = dangling_tree /\ stdin w' = [lit "y"] /\ trace w' = [] ++ tr
    /\ prompts tr = [] /\ removed_paths tr = [].
Proof.
  apply (C10_stat_failure_ends_the_run ascii_only strict None false
           (mk_world dangling_tree [lit "y"] [])
           [[marked_v2]] [marked_v2] FileNotFoundError).
  - vm_compute. reflexivity.
  - vm_compute. reflexivity.
  - eexists. vm_compute. reflexivity.
  - left. reflexivity.
  - vm_compute. reflexivity.
Defined.

(** The run on [dangling_tree], in full: the scan, the count, the listing,
    the failing [stat], and the exception. *)
Example main_on_a_dangling_link :
  main ascii_only strict None false (mk_world dangling_tree [lit "y"] []) =
  (Raise FileNotFoundError,
   mk_world dangling_tree [lit "y"]
     [ Tqdm_open []; Tqdm_update; Tqdm_close;
       Print (Found_n_conflict_files 1); Print (Listing [[marked_v2]]);
       Stat [marked_v2] ]).
Proof. vm_compute. reflexivity. Qed.
(** ** The summary line *)

(** C4, as amended.  For a total below 2^53 bytes, where the division is
    exact, the size is shown in kilobytes (the total over 1024, to the
    nearest hundredth, ties to even) when it is at most 1024^2, and in
    megabytes (the total over 1024^2, likewise) when it is larger. *)
Theorem C4_unit_of_the_total total :
  (total < 2 ^ 53)%N ->
  exists h,
    nearest_even h (100 * total)
      (if (1024 ^ 2 <? total)%N then 1024 ^ 2 else 1024)%N
    /\ total_size_str total =
       inr (fixed2 h ++ (if (1024 ^ 2 <? total)%N then " MB" else " KB"))%string.
Proof.
  intros H. rewrite (total_size_str_small total H).
  destruct (1024 ^ 2 <? total)%N.
  - exists (round_half_even (100 * total) (2 ^ 20)). split; [|reflexivity].
    change (1024 ^ 2)%N with (2 ^ 20)%N.
    apply round_half_even_nearest. reflexivity.
  - exists (round_half_even (100 * total) (2 ^ 10)). split; [|reflexivity].
    change 1024%N with (2 ^ 10)%N.
    apply round_half_even_nearest. reflexivity.
Qed.

Lemma C4_unit_of_the_total_witness :
  (exists h,
     nearest_even h (100 * 1126400)
       (if (1024 ^ 2 <? 1126400)%N then 1024 ^ 2 else 1024)%N
     /\ total_size_str 1126400 =
        inr (fixed2 h ++ (if (1024 ^ 2 <? 1126400)%N then " MB" else " KB"))%string)
  /\ total_size_str 1126400 = inr "1.07 MB"%string.
Proof.
  split.
  - apply (C4_unit_of_the_total 1126400). reflexivity.
  - vm_compute. reflexivity.
Defined.

(** C4 as first worded fails: a total of exactly 1024^2 bytes is shown in
    kilobytes. *)
Lemma C4_counterexample :
  total_size_str (1024 ^ 2) = inr "1024.00 KB"%string.
Proof. vm_compute. reflexivity. Qed.


(** * Further properties *)

(** ** What the scanner writes *)












Lemma os_walk_not_listable dir tree :
  listable dir tree = false -> os_walk dir tree = [].
Proof.
  unfold listable, os_walk.
  destruct (resolve tree dir) as [e|[at_ [sz|tgt|a es]]]; try reflexivity.
  cbn [walk]. now intros ->.
Qed.

(** X3.  The scanner does not check its argument: on a path that is
    missing, is not a directory, or is a directory that may not be listed,
    it returns the empty list and raises nothing; only the progress bar is
    drawn and closed. *)
Theorem X3_scanner_on_a_bad_directory uni rich dir verbose w :
  listable dir (fs w) = false ->
  find_files uni rich dir verbose w
  = (Ok [], mk_world (fs w) (stdin w) (trace w ++ [Tqdm_open dir; Tqdm_close])).
Proof.
  intros H. rewrite find_files_run, (os_walk_not_listable dir (fs w) H).
  reflexivity.
Qed.

Lemma X3_scanner_on_a_bad_directory_witness :
  find_files ascii_only strict [lit "private"] true (mk_world dangling_tree [] [])
  = (Ok [], mk_world dangling_tree [] ([] ++ [Tqdm_open [lit "private"]; Tqdm_close])).
Proof.
  apply (X3_scanner_on_a_bad_directory ascii_only strict [lit "private"] true
           (mk_world dangling_tree [] [])).
  vm_compute. reflexivity.
Defined.

(** X4.  The match is not anchored: a name that is matched stays matched
    when text is put before and after it. *)
Theorem X4_match_survives_extension uni name pre post :
  conflict_search uni name = true ->
  conflict_search uni (pre ++ name ++ post) = true.
Proof.
  unfold conflict_search. rewrite !search_spec.
  intros (a & u & b & -> & H). exists (pre ++ a), u, (b ++ post).
  split; [now rewrite <- !app_assoc | exact H].
Qed.

Lemma X4_match_survives_extension_witness :
  conflict_search ascii_only (lit "Copy of " ++ marked_v2 ++ lit ".bak") = true.
Proof.
  apply (X4_match_survives_extension ascii_only marked_v2
           (lit "Copy of ") (lit ".bak")).
  vm_compute. reflexivity.
Defined.

(** ** More runs of the main block *)







(** ** Every run of the main block *)

Section EveryRun.

Variable uni : N -> bool.
Variable rich : message -> option exn.

Lemma sum_sizes_any files :
  forall acc f s, exists r done,
    (forall tr,
       sum_sizes files acc (mk_world f s tr)
       = (r, mk_world f s (tr ++ map Stat done)))
    /\ (forall c, r <> SysExit c).
Proof.
  induction files as [|p rest IH]; intros acc f s.
  - exists (Ok acc), []. split; [|discriminate].
    intros tr. simpl. unfold ret. now rewrite app_nil_r.
  - destruct (stat_size p f) as [e|sz] eqn:E.
    + exists (Raise e), [p]. split; [|discriminate].
      intros tr. cbn [sum_sizes]. unfold bind at 1.
      rewrite stat_st_size_run. cbn [fs stdin trace]. now rewrite E.
    + destruct (IH (acc + sz)%N f s) as (r & done & H & Hr).
      exists r, (p :: done). split; [|exact Hr].
      intros tr. cbn [sum_sizes]. unfold bind at 1.
      rewrite stat_st_size_run. cbn [fs stdin trace]. rewrite E, H.
      cbn [map]. now rewrite <- app_assoc.
Qed.

(** Every run of the part after the count: how it ends, the tree and the
    input it leaves and what it adds to the trace do not depend on what was
    written before; it never ends through [exit]; [os.remove] is called
    only after a prompt answered by [y], on an initial segment of the list,
    and the tree left is what those calls leave. *)
Lemma report_and_confirm_any l f s :
  exists r f' s' d,
    (forall tr,
       report_and_confirm rich l (mk_world f s tr)
       = (r, mk_world f' s' (tr ++ d)))
    /\ (forall c, r <> SysExit c)
    /\ is_prefix (removed_paths d) l
    /\ f' = fold_left after_remove (removed_paths d) f
    /\ (removed_paths d <> [] ->
        exists rest n size_str d1 d2,
          s = lit "y" :: rest
          /\ d = d1 ++ Input n size_str :: d2
          /\ removed_paths d1 = []
          /\ removed_paths d2 = removed_paths d).
Proof.
  assert (Stop : forall (r : result unit) s' d,
            (forall c, r <> SysExit c) -> removed_paths d = [] ->
            (forall tr, report_and_confirm rich l (mk_world f s tr)
                        = (r, mk_world f s' (tr ++ d))) ->
            exists r f' s' d,
              (forall tr,
                 report_and_confirm rich l (mk_world f s tr)
                 = (r, mk_world f' s' (tr ++ d)))
              /\ (forall c, r <> SysExit c)
              /\ is_prefix (removed_paths d) l
              /\ f' = fold_left after_remove (removed_paths d) f
              /\ (removed_paths d <> [] ->
                  exists rest n size_str d1 d2,
                    s = lit "y" :: rest
                    /\ d = d1 ++ Input n size_str :: d2
                    /\ removed_paths d1 = []
                    /\ removed_paths d2 = removed_paths d)).
  { intros r s' d Hr Hd Run. exists r, f, s', d. rewrite Hd.
    split; [exact Run|]. split; [exact Hr|]. split; [now exists l|].
    split; [reflexivity | congruence]. }
  destruct (print_outcome rich (Listing l)) as [e|] eqn:Pl.
  { apply (Stop (Raise e) s []); [discriminate | reflexivity|].
    intros tr. rewrite report_and_confirm_run, Pl. now rewrite app_nil_r. }
  destruct (sum_sizes_any l 0%N f s) as (r0 & done & Hsum & Hr0).
  assert (Q0 : removed_paths (Print (Listing l) :: map Stat done) = []).
  { change (Print (Listing l) :: map Stat done)
      with ([Print (Listing l)] ++ map Stat done).
    rewrite removed_paths_app. now destruct (quiet_stats done) as [_ ->]. }
  destruct r0 as [total|e|c]; [| |now destruct (Hr0 c)].
  2:{ apply (Stop (Raise e) s (Print (Listing l) :: map Stat done));
        [discriminate | exact Q0|].
      intros tr. rewrite report_and_confirm_run, Pl. unfold bind at 1.
      cbn [fs stdin trace]. rewrite Hsum. now rewrite <- app_assoc. }
  destruct (total_size_str total) as [e|size_str] eqn:T.
  { apply (Stop (Raise e) s (Print (Listing l) :: map Stat done));
      [discriminate | exact Q0|].
    intros tr. rewrite report_and_confirm_run, Pl. unfold bind at 1.
    cbn [fs stdin trace]. rewrite Hsum, T. unfold raise.
    now rewrite <- app_assoc. }
  destruct s as [|line rest].
  { apply (Stop (Raise EOFError) []
             ((Print (Listing l) :: map Stat done)
                ++ [Input (List.length l) size_str]));
      [discriminate | now rewrite removed_paths_app, Q0|].
    intros tr. rewrite report_and_confirm_run, Pl. unfold bind at 1.
    cbn [fs stdin trace]. rewrite Hsum, T. unfold bind at 1. rewrite input_run.
    cbn [fs stdin trace]. now rewrite <- !app_assoc. }
  destruct (pystr_eqb line (lit "y")) eqn:Y.
  - apply pystr_eqb_eq in Y. subst line.
    destruct (removal_run rich l f) as [[evs r] tree'] eqn:Run.
    destruct (removal_run_calls rich l f evs r tree' Run)
      as (Pre & Tr & _ & _ & _ & _).
    exists (match r with None => Ok tt | Some e => Raise e end), tree', rest,
      ((Print (Listing l) :: map Stat done)
         ++ Input (List.length l) size_str :: evs).
    assert (Rd : removed_paths
                   ((Print (Listing l) :: map Stat done)
                      ++ Input (List.length l) size_str :: evs)
                 = removed_paths evs).
    { rewrite removed_paths_app, Q0. reflexivity. }
    rewrite Rd.
    split; [|split; [destruct r; discriminate | split; [exact Pre | split; [exact Tr|]]]].
    + intros tr. rewrite report_and_confirm_run, Pl. unfold bind at 1.
      cbn [fs stdin trace]. rewrite Hsum, T. unfold bind at 1. rewrite input_run.
      cbn [fs stdin trace]. rewrite pystr_eqb_refl, remove_files_run.
      cbn [fs stdin trace]. rewrite Run. now rewrite <- !app_assoc.
    + intros _. exists rest, (List.length l), size_str,
        (Print (Listing l) :: map Stat done), evs.
      repeat split; auto.
  - apply (Stop (Ok tt) rest
             ((Print (Listing l) :: map Stat done)
                ++ [Input (List.length l) size_str; Print Aborting_file_removal]));
      [discriminate | now rewrite removed_paths_app, Q0|].
    intros tr. rewrite report_and_confirm_run, Pl. unfold bind at 1.
    cbn [fs stdin trace]. rewrite Hsum, T. unfold bind at 1. rewrite input_run.
    cbn [fs stdin trace]. rewrite Y, print_abort.
    cbn [fs stdin trace]. now rewrite <- !app_assoc.
Qed.

(** The main block when the target is not found to be a directory. *)
Lemma main_not_a_directory args_dir verbose w :
  path_is_dir (target_dir args_dir) (fs w) <> inr true ->
  main uni rich args_dir verbose w =
  match path_is_dir (target_dir args_dir) (fs w) with
  | inl e => (Raise e, w)
  | inr _ =>
      match print_outcome rich (Directory_does_not_exist (target_dir args_dir)) with
      | Some e => (Raise e, w)
      | None =>
          (SysExit 1,
           mk_world (fs w) (stdin w)
             (trace w ++ [Print (Directory_does_not_exist (target_dir args_dir))]))
      end
  end.
Proof.
  intros H. unfold main. cbv zeta. unfold bind at 1.
  rewrite not_a_directory_is_dir.
  destruct (path_is_dir (target_dir args_dir) (fs w)) as [e|[|]];
    [reflexivity | congruence |].
  cbn [negb]. unfold bind at 1. rewrite print_run.
  now destruct (print_outcome rich _).
Qed.


End EveryRun.


(** ** More on the summary line *)

(** X8.  The unit fits the figure: below 2^53 bytes, a size shown in
    megabytes is never shown as less than 1.00, and a size shown in
    kilobytes is never shown as more than 1024.00. *)
Theorem X8_figure_fits_its_unit total :
  (total < 2 ^ 53)%N ->
  exists h,
    total_size_str total
    = inr (fixed2 h ++ (if (1024 ^ 2 <? total)%N then " MB" else " KB"))%string
    /\ (if (1024 ^ 2 <? total)%N then (100 <= h)%N else (h <= 102400)%N).
Proof.
  intros H. rewrite (total_size_str_small total H).
  destruct (1024 ^ 2 <? total)%N eqn:C.
  - exists (round_half_even (100 * total) (2 ^ 20)). split; [reflexivity|].
    apply N.ltb_lt in C.
    destruct (round_half_even_nearest (100 * total) (2 ^ 20) eq_refl) as (_ & U & _).
    change (2 ^ 20)%N with 1048576%N in *. change (1024 ^ 2)%N with 1048576%N in C.
    lia.
  - exists (round_half_even (100 * total) (2 ^ 10)). split; [reflexivity|].
    apply N.ltb_ge in C.
    destruct (round_half_even_nearest (100 * total) (2 ^ 10) eq_refl) as (L & _ & _).
    change (2 ^ 10)%N with 1024%N in *. change (1024 ^ 2)%N with 1048576%N in C.
    lia.
Qed.

Lemma X8_figure_fits_its_unit_witness :
  exists h,
    total_size_str 1048577
    = inr (fixed2 h ++ (if (1024 ^ 2 <? 1048577)%N then " MB" else " KB"))%string
    /\ (if (1024 ^ 2 <? 1048577)%N then (100 <= h)%N else (h <= 102400)%N).
Proof.
  apply (X8_figure_fits_its_unit 1048577). reflexivity.
Defined.

(** ** What a run removes *)

(** X14.  In every run of the main block, [os.remove] is called only if
    the first line of standard input is exactly [y] and only after the
    prompt was shown; the paths it is called on are an initial segment of
    the list of the scan, in its order, and the tree the run leaves is what
    those calls leave.  In every other run nothing is removed and the tree
    is left as it was. *)
Theorem X14_nothing_removed_without_y uni rich args_dir verbose w :
  exists r w' tr,
    main uni rich args_dir verbose w = (r, w')
    /\ trace w' = trace w ++ tr
    /\ fs w' = fold_left after_remove (removed_paths tr) (fs w)
    /\ is_prefix (removed_paths tr)
                 (conflict_paths uni (os_walk (target_dir args_dir) (fs w)))
    /\ (removed_paths tr <> [] ->
        exists rest n size_str tr1 tr2,
          stdin w = lit "y" :: rest
          /\ tr = tr1 ++ Input n size_str :: tr2
          /\ removed_paths tr1 = []
          /\ removed_paths tr2 = removed_paths tr).
Proof.
  assert (Stop : forall (r : result unit) s' d,
            removed_paths d = [] ->
            main uni rich args_dir verbose w
            = (r, mk_world (fs w) s' (trace w ++ d)) ->
            exists r w' tr,
              main uni rich args_dir verbose w = (r, w')
              /\ trace w' = trace w ++ tr
              /\ fs w' = fold_left after_remove (removed_paths tr) (fs w)
              /\ is_prefix (removed_paths tr)
                   (conflict_paths uni (os_walk (target_dir args_dir) (fs w)))
              /\ (removed_paths tr <> [] ->
                  exists rest n size_str tr1 tr2,
                    stdin w = lit "y" :: rest
                    /\ tr = tr1 ++ Input n size_str :: tr2
                    /\ removed_paths tr1 = []
                    /\ removed_paths tr2 = removed_paths tr)).
  { intros r s' d Hd Run. exists r. eexists. exists d.
    split; [exact Run|]. cbn [fs trace]. rewrite Hd.
    split; [reflexivity|]. split; [reflexivity|].
    split; [eexists; reflexivity | congruence]. }
  destruct (path_is_dir (target_dir args_dir) (fs w)) as [e|[|]] eqn:D.
  - apply (Stop (Raise e) (stdin w) []); [reflexivity|].
    rewrite main_not_a_directory, D by congruence.
    now rewrite app_nil_r, world_eta.
  - destruct (lines_print rich
                (scan_log uni verbose (os_walk (target_dir args_dir) (fs w))))
      eqn:L.
    + pose proof (quiet_scan_trace uni (target_dir args_dir) verbose (fs w))
        as [_ Qr].
      rewrite (main_after_scan uni rich args_dir verbose w D L). cbv zeta.
      set (l := conflict_paths uni (os_walk (target_dir args_dir) (fs w))).
      destruct (0 <? List.length l)%nat.
      * destruct (report_and_confirm_any rich l (fs w) (stdin w))
          as (r & f' & s' & d & Run & _ & Pre & Tr & Y).
        rewrite Run. exists r. eexists.
        exists ((scan_trace uni (target_dir args_dir) verbose (fs w)
                 ++ [Print (Found_n_conflict_files (List.length l))]) ++ d).
        split; [reflexivity|]. cbn [fs trace].
        assert (Rd : removed_paths
                       ((scan_trace uni (target_dir args_dir) verbose (fs w)
                         ++ [Print (Found_n_conflict_files (List.length l))]) ++ d)
                     = removed_paths d).
        { now rewrite !removed_paths_app, Qr. }
        rewrite Rd.
        split; [now rewrite <- !app_assoc|]. split; [exact Tr|].
        split; [exact Pre|]. intros Ne.
        destruct (Y Ne) as (rest & n & sz & d1 & d2 & Es & -> & R1 & R2).
        exists rest, n, sz,
          ((scan_trace uni (target_dir args_dir) verbose (fs w)
            ++ [Print (Found_n_conflict_files (List.length l))]) ++ d1), d2.
        repeat split; auto.
        -- now rewrite <- !app_assoc.
        -- now rewrite !removed_paths_app, Qr, R1.
      * exists (Ok tt). eexists.
        exists (scan_trace uni (target_dir args_dir) verbose (fs w)
                ++ [Print (Found_n_conflict_files (List.length l))]).
        split; [reflexivity|]. cbn [fs trace].
        rewrite removed_paths_app, Qr. cbn.
        split; [reflexivity|]. split; [reflexivity|].
        split; [eexists; reflexivity | congruence].
    + destruct (main_scan_fails uni rich args_dir verbose w D L)
        as (e & done & Run & [rest E]).
      apply (Stop (Raise e) (stdin w) (Tqdm_open (target_dir args_dir) :: done));
        [|exact Run].
      pose proof (quiet_scan_log uni verbose (os_walk (target_dir args_dir) (fs w)))
        as Q.
      rewrite E in Q. apply quiet_prefix in Q as [_ Q].
      change (Tqdm_open (target_dir args_dir) :: done)
        with ([Tqdm_open (target_dir args_dir)] ++ done).
      now rewrite removed_paths_app, Q.
  - destruct (print_outcome rich
                (Directory_does_not_exist (target_dir args_dir))) as [e|] eqn:P.
    + apply (Stop (Raise e) (stdin w) []); [reflexivity|].
      rewrite main_not_a_directory, D, P by congruence.
      now rewrite app_nil_r, world_eta.
    + apply (Stop (SysExit 1) (stdin w)
               [Print (Directory_does_not_exist (target_dir args_dir))]);
        [reflexivity|].
      rewrite main_not_a_directory, D, P by congruence. reflexivity.
Qed.



(** ** Scanning a sub-directory *)

Lemma entry_unique (name : pystr) (c1 c2 : node) (es : list (pystr * node)) :
  NoDup (map fst es) -> In (name, c1) es -> In (name, c2) es -> c1 = c2.
Proof.
  intros D H1 H2.
  pose proof (assoc_distinct name c1 es D H1) as E1.
  pose proof (assoc_distinct name c2 es D H2) as E2. congruence.
Qed.

(** A sub-directory that is no link is what its path resolves to, when its
    parent may be searched. *)
Lemma resolve_subdir dir tree at_ a es name a' es' :
  well_formed tree = true ->
  resolve tree dir = inr (at_, Dir a es) ->
  searchable a = true ->
  In (name, Dir a' es') es ->
  resolve tree (dir ++ [name]) = inr (at_ ++ [name], Dir a' es').
Proof.
  intros W R X Hin. unfold resolve in *.
  destruct (namei_app _ _ _ _ _ [name] _ _ R) as [h' ->].
  assert (Wt : well_formed (Dir a es) = true)
    by (eapply namei_well_formed; [exact W | exact W | exact R]).
  destruct (well_formed_dir a es Wt) as [D _].
  now rewrite namei_cons, X, (assoc_distinct _ _ _ D Hin), namei_nil.
Qed.

(** X9.  In a tree whose directories hold each name once, scanning a
    sub-directory that is no link, inside a directory that can be listed and
    searched, returns exactly the paths of the parent's scan that lie under
    the sub-directory. *)
Theorem X9_scan_of_a_subdirectory uni rich dir w at_ a es name a' es' :
  well_formed (fs w) = true ->
  resolve (fs w) dir = inr (at_, Dir a es) ->
  readable a = true ->
  searchable a = true ->
  In (name, Dir a' es') es ->
  exists l_sub l,
    returns (find_files uni rich (dir ++ [name]) false) w l_sub
    /\ returns (find_files uni rich dir false) w l
    /\ forall p, In p l_sub <-> In p l /\ is_prefix (dir ++ [name]) p.
Proof.
  intros W R Ra Xa Hin.
  assert (Wt : well_formed (Dir a es) = true)
    by (eapply namei_well_formed; [exact W | exact W | exact R]).
  destruct (well_formed_dir a es Wt) as [D _].
  exists (conflict_paths uni (os_walk (dir ++ [name]) (fs w))),
         (conflict_paths uni (os_walk dir (fs w))).
  split; [eexists; apply find_files_ok, lines_print_quiet|].
  split; [eexists; apply find_files_ok, lines_print_quiet|].
  unfold os_walk.
  rewrite R, (resolve_subdir dir (fs w) at_ a es name a' es' W R Xa Hin).
  intros p. rewrite !scan_of_walk. split.
  - intros (rel & nm & c & -> & (a0 & es0 & V & Hc) & Dc & M). split.
    + exists (name :: rel), nm, c. repeat split; auto.
      * now rewrite <- !app_assoc.
      * exists a0, es0. split; [|exact Hc]. econstructor; eauto.
      * rewrite <- Dc. f_equal. now rewrite <- !app_assoc.
    + exists (rel ++ [nm]). now rewrite <- !app_assoc.
  - intros [(rel & nm & c & -> & (a0 & es0 & V & Hc) & Dc & M) [r E]].
    rewrite <- !app_assoc in E. apply app_inv_head in E.
    inversion V as [? ? _|? ? name0 a1 es1 rel0 ? _ _ Hin0 V0]; subst.
    + simpl in E. injection E as -> _.
      rewrite (entry_unique name c (Dir a' es') es0 D Hc Hin) in Dc.
      discriminate.
    + simpl in E. injection E as -> _.
      pose proof (entry_unique name _ _ es D Hin0 Hin) as Eq.
      injection Eq as -> ->.
      exists rel0, nm, c. repeat split; auto.
      * now rewrite <- !app_assoc.
      * now exists a0, es0.
      * rewrite <- Dc. f_equal. now rewrite <- !app_assoc.
Qed.

Lemma X9_scan_of_a_subdirectory_witness :
  exists l_sub l,
    returns (find_files ascii_only strict ([] ++ [lit "sub"]) false)
            (mk_world sample_tree [] []) l_sub
    /\ returns (find_files ascii_only strict [] false)
               (mk_world sample_tree [] []) l
    /\ forall p, In p l_sub <-> In p l /\ is_prefix ([] ++ [lit "sub"]) p.
Proof.
  apply (X9_scan_of_a_subdirectory ascii_only strict []
           (mk_world sample_tree [] []) [] rw
           [ (marked_v2, File 512000);
             (lit "report_final.docx", File 10);
             (lit "sub", Dir rw [ (marked_phone, File 614400) ]) ]
           (lit "sub") rw [ (marked_phone, File 614400) ]).
  - vm_compute. reflexivity.
  - reflexivity.
  - reflexivity.
  - reflexivity.
  - simpl. right. right. left. reflexivity.
Defined.

(** ** The tree after a removal *)

Lemma remove_at_leaf r name n :
  (forall a es, n <> Dir a es) -> remove_at r name n = n.
Proof. destruct n as [sz|tgt|a es]; intros H; [reflexivity.. | now destruct (H a es)]. Qed.

Lemma remove_at_cons k r name a es :
  remove_at (k :: r) name (Dir a es) =
  Dir a (update_assoc k (remove_at r name) es).
Proof.
  cbn [remove_at]. f_equal.
  induction es as [|[k' v] t IH]; [reflexivity|].
  cbn [update_assoc]. destruct (pystr_eqb k' k); [reflexivity|]. now rewrite IH.
Qed.

Lemma pystr_eqb_neq a b : pystr_eqb a b = false <-> a <> b.
Proof.
  split.
  - intros E H. apply pystr_eqb_eq in H. congruence.
  - intros H. destruct (pystr_eqb a b) eqn:E; [|reflexivity].
    apply pystr_eqb_eq in E. contradiction.
Qed.

Lemma not_in_assoc_none k es : ~ In k (map fst es) -> assoc k es = None.
Proof.
  induction es as [|[k' v] t IH]; cbn [assoc map fst]; [auto|].
  intros H. destruct (pystr_eqb k' k) eqn:E.
  - apply pystr_eqb_eq in E. subst. exfalso. apply H. now left.
  - apply IH. intros Hin. apply H. now right.
Qed.

Lemma assoc_remove_same name es :
  NoDup (map fst es) -> assoc name (remove_assoc name es) = None.
Proof.
  induction es as [|[k v] t IH]; cbn [remove_assoc map fst]; [reflexivity|].
  intros D. inversion D as [|? ? Hk Dt]; subst.
  destruct (pystr_eqb k name) eqn:E.
  - apply pystr_eqb_eq in E. subst. now apply not_in_assoc_none.
  - cbn [assoc]. rewrite E. auto.
Qed.

Lemma assoc_remove_other k name es :
  k <> name -> assoc k (remove_assoc name es) = assoc k es.
Proof.
  intros N. induction es as [|[k' v] t IH]; [reflexivity|].
  cbn [remove_assoc assoc]. destruct (pystr_eqb k' name) eqn:E.
  - apply pystr_eqb_eq in E. subst.
    assert (F : pystr_eqb name k = false) by (apply pystr_eqb_neq; congruence).
    now rewrite F.
  - cbn [assoc]. now rewrite IH.
Qed.

Lemma assoc_update k k' f es :
  assoc k (update_assoc k' f es) =
  if pystr_eqb k' k then option_map f (assoc k es) else assoc k es.
Proof.
  induction es as [|[k0 v] t IH]; cbn [update_assoc assoc option_map].
  - now destruct (pystr_eqb k' k).
  - destruct (pystr_eqb k0 k') eqn:E0.
    + apply pystr_eqb_eq in E0. subst k0. cbn [assoc].
      now destruct (pystr_eqb k' k).
    + cbn [assoc]. destruct (pystr_eqb k0 k) eqn:E1; [|exact IH].
      apply pystr_eqb_eq in E1. subst k0.
      assert (F : pystr_eqb k' k = false).
      { apply pystr_eqb_neq. intros ->. rewrite pystr_eqb_refl in E0. discriminate. }
      now rewrite F.
Qed.

Lemma map_fst_update k f es : map fst (update_assoc k f es) = map fst es.
Proof.
  induction es as [|[k' v] t IH]; [reflexivity|].
  cbn [update_assoc]. destruct (pystr_eqb k' k); cbn [map fst]; [reflexivity|].
  now rewrite IH.
Qed.

Lemma remove_assoc_incl name es e : In e (remove_assoc name es) -> In e es.
Proof.
  induction es as [|[k v] t IH]; cbn [remove_assoc]; [auto|].
  destruct (pystr_eqb k name); [now right|].
  intros [<-|H]; [now left | right; auto].
Qed.

Lemma NoDup_remove_assoc name es :
  NoDup (map fst es) -> NoDup (map fst (remove_assoc name es)).
Proof.
  induction es as [|[k v] t IH]; cbn [remove_assoc map fst]; [auto|].
  intros D. inversion D as [|? ? Hk Dt]; subst.
  destruct (pystr_eqb k name); [exact Dt|].
  cbn [map fst]. constructor; [|auto].
  intros Hin. apply Hk. apply in_map_iff in Hin as (e & <- & He).
  apply in_map. eapply remove_assoc_incl. exact He.
Qed.

Lemma NoDup_distinct l : NoDup l -> distinct l = true.
Proof.
  induction 1 as [|x t Hx _ IH]; [reflexivity|]. cbn [distinct].
  rewrite IH, andb_true_r. apply negb_true_iff.
  destruct (existsb (pystr_eqb x) t) eqn:E; [|reflexivity].
  apply existsb_exists in E as (y & Hy & Ey). apply pystr_eqb_eq in Ey.
  subst. contradiction.
Qed.

Lemma well_formed_intro a es :
  NoDup (map fst es) ->
  (forall name c, In (name, c) es -> well_formed c = true) ->
  well_formed (Dir a es) = true.
Proof.
  intros D Wc. cbn [well_formed]. rewrite (NoDup_distinct _ D).
  apply forallb_forall. intros [k c] Hin. eapply Wc. exact Hin.
Qed.

(** Removing an entry keeps names unique. *)
Lemma well_formed_remove_at name n :
  forall r, well_formed n = true -> well_formed (remove_at r name n) = true.
Proof.
  induction n as [sz|tgt|a es IH] using node_induction; intros r W;
    [exact W | exact W |].
  destruct (well_formed_dir a es W) as [D Wc]. destruct r as [|k r].
  - cbn [remove_at]. apply well_formed_intro.
    + now apply NoDup_remove_assoc.
    + intros k c Hin. apply remove_assoc_incl in Hin. eauto.
  - rewrite remove_at_cons. apply well_formed_intro.
    + now rewrite map_fst_update.
    + clear D W. induction es as [|[k' v] t IHt]; [contradiction|].
      inversion IH as [|? ? IHv IHes]; subst.
      cbn [update_assoc]. destruct (pystr_eqb k' k).
      * intros nm c [E|Hin].
        -- injection E as <- <-. apply IHv. eapply Wc. now left.
        -- eapply Wc. right. exact Hin.
      * intros nm c [E|Hin].
        -- injection E as <- <-. eapply Wc. now left.
        -- eapply IHt; eauto. intros nm' c' H'. eapply Wc. right. exact H'.
Qed.

Lemma strip_refl p : strip p p = Some [].
Proof.
  induction p as [|k p IH]; [reflexivity|].
  cbn [strip]. now rewrite pystr_eqb_refl.
Qed.

Lemma strip_snoc cur :
  forall at_ k,
    strip (cur ++ [k]) at_ =
    match strip cur at_ with
    | Some (k' :: r) => if pystr_eqb k' k then Some r else None
    | _ => None
    end.
Proof.
  induction cur as [|k0 cur IH]; intros at_ k.
  - cbn [app strip]. destruct at_ as [|k' r]; [reflexivity|].
    now destruct (pystr_eqb k' k).
  - cbn [app strip]. destruct at_ as [|k' r]; [reflexivity|].
    destruct (pystr_eqb k' k0); [apply IH | reflexivity].
Qed.

Section Removal.

(** The entry [name] of the directory at the real path [at_] is taken out
    of [root]. *)
Variable root : node.
Variable at_ : path.
Variable name : pystr.
Hypothesis root_well_formed : well_formed root = true.

Lemma after_removal_dir cur a es :
  exists es', after_removal at_ name cur (Dir a es) = Dir a es'.
Proof.
  unfold after_removal. destruct (strip cur at_) as [[|k r]|].
  - now exists (remove_assoc name es).
  - rewrite remove_at_cons. eauto.
  - now exists es.
Qed.

(** One step of a resolution, before and after: the entry looked up is
    gone, or it is what the old entry has become. *)
Lemma lookup_after_removal cur a es k :
  well_formed (Dir a es) = true ->
  exists es',
    after_removal at_ name cur (Dir a es) = Dir a es'
    /\ (assoc k es' = None
        \/ exists c, assoc k es = Some c
                     /\ assoc k es' = Some (after_removal at_ name (cur ++ [k]) c)).
Proof.
  intros W. destruct (well_formed_dir a es W) as [D _].
  unfold after_removal. rewrite strip_snoc.
  destruct (strip cur at_) as [[|k' r]|].
  - exists (remove_assoc name es). split; [reflexivity|].
    destruct (pystr_eqb k name) eqn:E.
    + apply pystr_eqb_eq in E. subst. left. now apply assoc_remove_same.
    + apply pystr_eqb_neq in E. rewrite (assoc_remove_other k name es E).
      destruct (assoc k es) as [c|]; [right; now exists c | now left].
  - exists (update_assoc k' (remove_at r name) es).
    split; [apply remove_at_cons|]. rewrite assoc_update.
    destruct (assoc k es) as [c|]; [|left; now destruct (pystr_eqb k' k)].
    right. exists c. split; [reflexivity|]. now destruct (pystr_eqb k' k).
  - exists es. split; [reflexivity|].
    destruct (assoc k es) as [c|]; [right; now exists c | now left].
Qed.

(** A resolution after the removal fails for want of an entry, or goes as
    before and arrives at what the old result has become. *)
Lemma namei_after_removal h f :
  forall n cur p,
    well_formed n = true ->
    namei h (remove_at at_ name root) f (after_removal at_ name cur n) cur p
    = inl FileNotFoundError
    \/ match namei h root f n cur p with
       | inr (cur', m) =>
           namei h (remove_at at_ name root) f (after_removal at_ name cur n) cur p
           = inr (cur', after_removal at_ name cur' m)
       | inl e =>
           namei h (remove_at at_ name root) f (after_removal at_ name cur n) cur p
           = inl e
       end.
Proof.
  assert (Leaf : forall cur n, (forall a es, n <> Dir a es) ->
                               after_removal at_ name cur n = n).
  { intros cur n H. unfold after_removal.
    destruct (strip cur at_); [now apply remove_at_leaf | reflexivity]. }
  induction h as [|h IHh]; intros n cur p; revert n cur;
    (induction p as [|k p IHp]; intros n cur W;
     [ right; now rewrite !namei_nil
     | rewrite !namei_cons;
       destruct n as [sz|tgt|a es];
       [ rewrite Leaf by discriminate; now right
       | rewrite Leaf by discriminate; now right
       | destruct (lookup_after_removal cur a es k W) as (es' & -> & [N | (c & A & A')]);
         [ rewrite N; destruct (searchable a); [now left|];
           right; reflexivity
         | rewrite A, A'; destruct (searchable a); [|now right];
           destruct (well_formed_dir a es W) as [_ Wc];
           apply assoc_In in A;
           destruct c as [sz|tgt|a' es'0];
           [ rewrite Leaf by discriminate;
             pose proof (IHp (File sz) (cur ++ [k]) eq_refl) as G;
             rewrite Leaf in G by discriminate; exact G
           | rewrite Leaf by discriminate
           | destruct (after_removal_dir (cur ++ [k]) a' es'0) as [es2 E2];
             pose proof (IHp (Dir a' es'0) (cur ++ [k]) (Wc _ _ A)) as G;
             rewrite E2 in G |- *; exact G ] ] ] ]).
  - destruct (f || negb (is_nil p)); [now right|]. right.
    now rewrite Leaf by discriminate.
  - destruct (f || negb (is_nil p)).
    + specialize (IHh root [] (tgt ++ p) root_well_formed).
      unfold after_removal at 1 3 in IHh. cbn [strip] in IHh. exact IHh.
    + right. now rewrite Leaf by discriminate.
Qed.

(** What no longer resolves for want of an entry does not resolve after a
    further removal either, and a resolution that succeeds after the removal
    succeeded before, with the same real path and a node of the same kind. *)
Lemma resolve_after_removal f p :
  namei max_links (remove_at at_ name root) f (remove_at at_ name root) [] p
  = inl FileNotFoundError
  \/ match namei max_links root f root [] p with
     | inr (cur', m) =>
         namei max_links (remove_at at_ name root) f (remove_at at_ name root) [] p
         = inr (cur', after_removal at_ name cur' m)
     | inl e =>
         namei max_links (remove_at at_ name root) f (remove_at at_ name root) [] p
         = inl e
     end.
Proof.
  pose proof (namei_after_removal max_links f root [] p root_well_formed) as H.
  unfold after_removal at 1 3 in H. cbn [strip] in H. exact H.
Qed.

End Removal.

(** ** What a removal takes away *)

Lemma split_last_app p :
  forall q name, split_last p = Some (q, name) -> p = q ++ [name].
Proof.
  induction p as [|x t IH]; intros q name H; [discriminate|].
  cbn [split_last] in H. destruct (split_last t) as [[q' l]|] eqn:E.
  - injection H as <- <-. cbn [app]. f_equal. now apply IH.
  - injection H as <- <-. destruct t as [|y t']; [reflexivity|].
    cbn [split_last] in E. destruct (split_last t') as [[? ?]|]; discriminate.
Qed.

(** What a successful [os.remove] has found and done. *)
Lemma unlink_inv p root root' :
  unlink p root = inr root' ->
  exists q name at_ a es c,
    split_last p = Some (q, name)
    /\ resolve root q = inr (at_, Dir a es)
    /\ searchable a = true
    /\ assoc name es = Some c
    /\ root' = remove_at at_ name root.
Proof.
  unfold unlink. destruct (split_last p) as [[q name]|]; [|discriminate].
  destruct (resolve root q) as [e|[at_ [sz|tgt|a es]]] eqn:R; try discriminate.
  destruct (searchable a) eqn:X; [|discriminate].
  destruct (assoc name es) as [c|] eqn:A; [|discriminate].
  destruct (writable a); [|discriminate].
  intros H. exists q, name, at_, a, es, c.
  destruct c as [sz|tgt|a' es']; [| |discriminate];
    injection H as <-; repeat split; auto.
Qed.

(** Resolving one more part, whatever is done with a link at the end: the
    parts before the last are resolved with links followed. *)
Lemma namei_snoc h root f :
  forall n cur p q,
    is_nil q = false ->
    match namei h root true n cur p with
    | inl e => namei h root f n cur (p ++ q) = inl e
    | inr (cur', n') =>
        exists h', namei h root f n cur (p ++ q) = namei h' root f n' cur' q
    end.
Proof.
  assert (NN : forall (p q : path), is_nil q = false -> is_nil (p ++ q) = false)
    by (intros [|? ?] q H; [exact H | reflexivity]).
  induction h as [|h IHh]; intros n cur p; revert n cur;
    (induction p as [|k0 p IHp]; intros n cur q Q;
     [ rewrite namei_nil; eexists; reflexivity
     | cbn [app]; rewrite !namei_cons;
       destruct n as [sz|tgt|a es]; try reflexivity;
       destruct (searchable a); try reflexivity;
       destruct (assoc k0 es) as [[sz|tgt|a' es']|]; try reflexivity;
       try (apply IHp; exact Q) ]).
  - rewrite (NN p q Q), orb_true_r. reflexivity.
  - rewrite (NN p q Q), orb_true_r. cbn [orb]. rewrite app_assoc.
    apply IHh. exact Q.
Qed.

Section Gone.

Variable root : node.
Hypothesis root_well_formed : well_formed root = true.

(** After a successful [os.remove] names are still unique, and the path no
    longer resolves, with or without its last link followed. *)
Lemma unlink_gone p root' :
  unlink p root = inr root' ->
  well_formed root' = true
  /\ unlink p root' = inl FileNotFoundError
  /\ forall f, namei max_links root' f root' [] p = inl FileNotFoundError.
Proof.
  intros U.
  destruct (unlink_inv p root root' U) as (q & name & at_ & a & es & c & S & R & X & A & ->).
  split; [now apply well_formed_remove_at|].
  assert (Wd : well_formed (Dir a es) = true)
    by (eapply namei_well_formed;
        [exact root_well_formed | exact root_well_formed | exact R]).
  destruct (well_formed_dir a es Wd) as [D _].
  pose proof (assoc_remove_same name es D) as Gone.
  destruct (resolve_after_removal root at_ name root_well_formed true q) as [E|E].
  - split.
    + unfold unlink, resolve. now rewrite S, E.
    + intros f. rewrite (split_last_app p q name S).
      pose proof (namei_snoc max_links (remove_at at_ name root) f
                    (remove_at at_ name root) [] q [name] eq_refl) as G.
      now rewrite E in G.
  - unfold resolve in R. rewrite R in E.
    unfold after_removal in E. rewrite strip_refl in E. cbn [remove_at] in E.
    split.
    + unfold unlink, resolve. now rewrite S, E, X, Gone.
    + intros f. rewrite (split_last_app p q name S).
      pose proof (namei_snoc max_links (remove_at at_ name root) f
                    (remove_at at_ name root) [] q [name] eq_refl) as G.
      rewrite E in G. destruct G as [h' ->].
      now rewrite namei_cons, X, Gone.
Qed.

(** One attempted [os.remove] keeps names unique and brings nothing back:
    what did not resolve for want of an entry still does not. *)
Lemma after_remove_keeps file :
  well_formed (after_remove root file) = true
  /\ forall f p,
       namei max_links root f root [] p = inl FileNotFoundError ->
       namei max_links (after_remove root file) f (after_remove root file) [] p
       = inl FileNotFoundError.
Proof.
  unfold after_remove. destruct (unlink file root) as [e|root'] eqn:U;
    [now split|].
  destruct (unlink_inv file root root' U) as (q & name & at_ & a & es & c & _ & _ & _ & _ & ->).
  split; [now apply well_formed_remove_at|].
  intros f p H.
  destruct (resolve_after_removal root at_ name root_well_formed f p) as [E|E];
    [exact E|].
  now rewrite H in E.
Qed.

(** One attempted [os.remove] makes nothing appear: what resolves
    afterwards resolved before, at the same real path, to a node of the
    same kind. *)
Lemma after_remove_resolved file f p at_ m' :
  namei max_links (after_remove root file) f (after_remove root file) [] p
  = inr (at_, m') ->
  exists m,
    namei max_links root f root [] p = inr (at_, m)
    /\ match m' with
       | File sz => m = File sz
       | Symlink tgt => m = Symlink tgt
       | Dir a _ => exists es, m = Dir a es
       end.
Proof.
  unfold after_remove. destruct (unlink file root) as [e|root'] eqn:U.
  - intros H. exists m'. split; [exact H|].
    destruct m' as [sz|tgt|a es]; [reflexivity | reflexivity | now exists es].
  - destruct (unlink_inv file root root' U) as (q & name & rm & a & es & c & _ & _ & _ & _ & ->).
    intros H.
    destruct (resolve_after_removal root rm name root_well_formed f p) as [E|E];
      [congruence|].
    destruct (namei max_links root f root [] p) as [e|[cur' m]]; [congruence|].
    rewrite H in E. injection E as -> ->. exists m. split; [reflexivity|].
    destruct m as [sz|tgt|a0 es0].
    + unfold after_removal. destruct (strip cur' rm); reflexivity.
    + unfold after_removal. destruct (strip cur' rm); reflexivity.
    + destruct (after_removal_dir rm name cur' a0 es0) as [es2 ->].
      now exists es0.
Qed.

End Gone.

(** The same through a series of attempts. *)
Lemma removals_keep files :
  forall root,
    well_formed root = true ->
    well_formed (fold_left after_remove files root) = true
    /\ (forall f p,
          namei max_links root f root [] p = inl FileNotFoundError ->
          namei max_links (fold_left after_remove files root) f
                (fold_left after_remove files root) [] p
          = inl FileNotFoundError)
    /\ (forall f p at_ m',
          namei max_links (fold_left after_remove files root) f
                (fold_left after_remove files root) [] p = inr (at_, m') ->
          exists m,
            namei max_links root f root [] p = inr (at_, m)
            /\ match m' with
               | File sz => m = File sz
               | Symlink tgt => m = Symlink tgt
               | Dir a _ => exists es, m = Dir a es
               end).
Proof.
  induction files as [|file rest IH]; intros root W.
  - cbn [fold_left]. split; [exact W|].
    split; [intros f p H; exact H|].
    intros f p at_ m' H. exists m'. split; [exact H|].
    destruct m' as [sz|tgt|a es]; [reflexivity | reflexivity | now exists es].
  - cbn [fold_left].
    destruct (after_remove_keeps root W file) as [W1 K1].
    destruct (IH (after_remove root file) W1) as (W2 & K2 & A2).
    split; [exact W2|].
    split; [intros f p H; exact (K2 f p (K1 f p H))|].
    intros f p at_ m' H.
    destruct (A2 f p at_ m' H) as (m1 & H1 & Kind1).
    destruct (after_remove_resolved root W file f p at_ m1 H1) as (m & H0 & Kind0).
    exists m. split; [exact H0|].
    destruct m' as [sz|tgt|a es'].
    + subst m1. exact Kind0.
    + subst m1. exact Kind0.
    + destruct Kind1 as [es1 ->]. exact Kind0.
Qed.

Section RemoverEffects.

Variable rich : message -> option exn.

(** What the loop reports as removed no longer resolves in the tree it
    leaves. *)
Lemma removal_run_gone files :
  forall tree evs r tree' p f,
    well_formed tree = true ->
    removal_run rich files tree = (evs, r, tree') ->
    In (Print (Removed_file p)) evs ->
    namei max_links tree' f tree' [] p = inl FileNotFoundError.
Proof.
  induction files as [|file rest IH]; intros tree evs r tree' p f W Run Hin.
  - injection Run as <- _ _. contradiction.
  - cbn [removal_run] in Run.
    destruct (after_remove_keeps tree W file) as [W1 _].
    assert (Step : In (Print (Removed_file p)) (fst (removal_step rich tree file)) ->
                   namei max_links (after_remove tree file) f
                         (after_remove tree file) [] p
                   = inl FileNotFoundError).
    { unfold removal_step, after_remove.
      destruct (unlink file tree) as [e|t1] eqn:U;
        [ destruct (print_outcome rich (Error_removing_file file e))
        | destruct (print_outcome rich (Removed_file file)) as [e|];
          [ destruct (print_outcome rich (Error_removing_file file e)) |] ];
        cbn [fst In]; intros H; repeat (destruct H as [H|H]);
        try discriminate; try contradiction.
      injection H as <-.
      destruct (unlink_gone tree W file t1 U) as (_ & _ & G). apply G. }
    destruct (removal_step rich tree file) as [evs0 [e|]]; cbn [fst] in Step.
    + injection Run as <- _ <-. auto.
    + destruct (removal_run rich rest (after_remove tree file))
        as [[evs1 r1] tree1] eqn:Run1.
      injection Run as <- _ <-.
      apply in_app_or in Hin as [Hin|Hin].
      * destruct (removal_run_calls rich rest _ _ _ _ Run1) as (_ & -> & _).
        destruct (removals_keep (removed_paths evs1) _ W1) as (_ & K & _).
        apply K. auto.
      * eapply IH; eauto.
Qed.

End RemoverEffects.

(** X10.  The remover only takes entries away: in a tree whose directories
    hold each name once, however [remove_files] ends, names are still
    unique in the tree it leaves, and a path that exists there, is a
    directory there, or is a file of some size there, was so before. *)
Theorem X10_remover_makes_nothing_appear rich files w q :
  well_formed (fs w) = true ->
  exists r w',
    remove_files rich files w = (r, w')
    /\ well_formed (fs w') = true
    /\ (path_exists q (fs w') = inr true -> path_exists q (fs w) = inr true)
    /\ (path_is_dir q (fs w') = inr true -> path_is_dir q (fs w) = inr true)
    /\ (forall sz, stat_size q (fs w') = inr sz ->
        path_is_dir q (fs w') = inr false ->
        stat_size q (fs w) = inr sz).
Proof.
  intros W. rewrite remove_files_run.
  destruct (removal_run rich files (fs w)) as [[evs r] tree'] eqn:Run.
  destruct (removal_run_calls rich files _ _ _ _ Run) as (_ & -> & _).
  destruct (removals_keep (removed_paths evs) (fs w) W) as (W' & _ & A).
  do 2 eexists. split; [reflexivity|]. cbn [fs]. split; [exact W'|].
  unfold path_exists, path_is_dir, stat_size, resolve.
  set (t' := fold_left after_remove (removed_paths evs) (fs w)) in *.
  destruct (namei max_links t' true t' [] q) as [e|[at_ m']] eqn:R'.
  - split; [destruct (ignored_error e); discriminate|].
    split; [destruct (ignored_error e); discriminate | discriminate].
  - destruct (A true q at_ m' R') as (m & -> & Kind).
    destruct m' as [sz'|tgt|a es'];
      [subst m | subst m | destruct Kind as [es ->]];
      (split; [intros H; exact H|]; split; [intros H; exact H|]);
      intros sz H1 H2; try exact H1; discriminate.
Qed.

Lemma X10_remover_makes_nothing_appear_witness :
  exists r w',
    remove_files strict [[marked_v2]; [lit "gone"]] (mk_world sample_tree [] [])
    = (r, w')
    /\ well_formed (fs w') = true
    /\ (path_exists [lit "sub"; marked_phone] (fs w') = inr true ->
        path_exists [lit "sub"; marked_phone] sample_tree = inr true)
    /\ (path_is_dir [lit "sub"; marked_phone] (fs w') = inr true ->
        path_is_dir [lit "sub"; marked_phone] sample_tree = inr true)
    /\ (forall sz, stat_size [lit "sub"; marked_phone] (fs w') = inr sz ->
        path_is_dir [lit "sub"; marked_phone] (fs w') = inr false ->
        stat_size [lit "sub"; marked_phone] sample_tree = inr sz).
Proof.
  apply (X10_remover_makes_nothing_appear strict [[marked_v2]; [lit "gone"]]
           (mk_world sample_tree [] []) [lit "sub"; marked_phone]).
  vm_compute. reflexivity.
Defined.

(** X11.  In a tree whose directories hold each name once, however
    [remove_files] ends, every path it has reported as removed no longer
    exists in the tree it leaves, whatever else was in the list. *)
Theorem X11_reported_removed_is_gone rich files w p :
  well_formed (fs w) = true ->
  exists r w' tr,
    remove_files rich files w = (r, w')
    /\ trace w' = trace w ++ tr
    /\ (In (Print (Removed_file p)) tr ->
        path_exists p (fs w') = inr false
        /\ lresolve (fs w') p = inl FileNotFoundError).
Proof.
  intros W. rewrite remove_files_run.
  destruct (removal_run rich files (fs w)) as [[evs r] tree'] eqn:Run.
  do 3 eexists. split; [reflexivity|]. cbn [fs trace]. split; [reflexivity|].
  intros Hin. split.
  - unfold path_exists, resolve.
    now rewrite (removal_run_gone rich files _ _ _ _ p true W Run Hin).
  - apply (removal_run_gone rich files _ _ _ _ p false W Run Hin).
Qed.

Lemma X11_reported_removed_is_gone_witness :
  exists r w' tr,
    remove_files strict [[lit "gone"]; [lit "sub"; marked_phone]]
                 (mk_world sample_tree [] []) = (r, w')
    /\ trace w' = [] ++ tr
    /\ (In (Print (Removed_file [lit "sub"; marked_phone])) tr ->
        path_exists [lit "sub"; marked_phone] (fs w') = inr false
        /\ lresolve (fs w') [lit "sub"; marked_phone] = inl FileNotFoundError).
Proof.
  apply (X11_reported_removed_is_gone strict
           [[lit "gone"]; [lit "sub"; marked_phone]]
           (mk_world sample_tree [] []) [lit "sub"; marked_phone]).
  vm_compute. reflexivity.
Defined.

(** That run: the second path is reported as removed and is gone. *)
Example removed_path_is_gone :
  exists w',
    remove_files strict [[lit "gone"]; [lit "sub"; marked_phone]]
                 (mk_world sample_tree [] []) = (Ok tt, w')
    /\ In (Print (Removed_file [lit "sub"; marked_phone])) (trace w')
    /\ path_exists [lit "sub"; marked_phone] (fs w') = inr false
    /\ path_exists [lit "sub"; marked_phone] sample_tree = inr true.
Proof.
  eexists. split; [vm_compute; reflexivity|]. cbn [trace fs].
  split; [right; right; right; left; reflexivity|].
  split; vm_compute; reflexivity.
Qed.



(** ** Scanning again after a removal *)

(** A path of a scan resolves, or is barred by a permission: it is not a
    path whose entry is missing. *)
Lemma scanned_path_resolves uni dir tree p :
  well_formed tree = true ->
  In p (conflict_paths uni (os_walk dir tree)) ->
  lresolve tree p <> inl FileNotFoundError.
Proof.
  intros W H. unfold os_walk in H.
  destruct (resolve tree dir) as [e|[at_ top]] eqn:R; [contradiction|].
  apply scan_of_walk in H as (rel & name & c & -> & (a & es & V & Hin) & _ & _).
  assert (Wt : well_formed top = true)
    by (eapply namei_well_formed; [exact W | exact W | exact R]).
  destruct (well_formed_dir a es (visited_well_formed _ _ _ V Wt)) as [D _].
  unfold lresolve, resolve in *.
  assert (Q : is_nil (rel ++ [name]) = false) by (now destruct rel).
  pose proof (namei_snoc max_links tree false tree [] dir (rel ++ [name]) Q) as G.
  rewrite R in G. destruct G as [h' ->].
  rewrite (namei_visited h' tree false top rel _ V Wt), namei_cons.
  destruct (searchable a); [|discriminate].
  rewrite (assoc_distinct _ _ _ D Hin).
  destruct c as [sz|tgt|a' es']; rewrite ?namei_nil; discriminate.
Qed.

(** X13.  In a tree whose directories hold each name once, a scan made
    after [remove_files], however that ended, returns no path that
    [remove_files] has reported as removed. *)
Theorem X13_scan_after_removal uni rich dir files w :
  well_formed (fs w) = true ->
  exists r w1 tr,
    remove_files rich files w = (r, w1)
    /\ trace w1 = trace w ++ tr
    /\ forall verbose l2 p,
         returns (find_files uni rich dir verbose) w1 l2 ->
         In p l2 ->
         ~ In (Print (Removed_file p)) tr.
Proof.
  intros W. rewrite remove_files_run.
  destruct (removal_run rich files (fs w)) as [[evs r] tree'] eqn:Run.
  do 3 eexists. split; [reflexivity|]. cbn [fs trace]. split; [reflexivity|].
  intros verbose l2 p R Hin Rm.
  apply find_files_returned in R as [_ ->]. cbn [fs] in Hin.
  destruct (removal_run_calls rich files _ _ _ _ Run) as (_ & T & _).
  pose proof (removals_keep (removed_paths evs) (fs w) W) as (W' & _).
  rewrite <- T in W'.
  apply (scanned_path_resolves uni dir tree' p W' Hin).
  apply (removal_run_gone rich files _ _ _ _ p false W Run Rm).
Qed.

Lemma X13_scan_after_removal_witness :
  exists r w1 tr,
    remove_files strict [[marked_v2]; [lit "gone"]] (mk_world sample_tree [] [])
    = (r, w1)
    /\ trace w1 = [] ++ tr
    /\ forall verbose l2 p,
         returns (find_files ascii_only strict [] verbose) w1 l2 ->
         In p l2 ->
         ~ In (Print (Removed_file p)) tr.
Proof.
  apply (X13_scan_after_removal ascii_only strict []
           [[marked_v2]; [lit "gone"]] (mk_world sample_tree [] [])).
  vm_compute. reflexivity.
Defined.

(** That run: the first path is removed, and the scan made afterwards
    returns the other marked file only. *)
Example scan_after_a_removal :
  exists w1,
    remove_files strict [[marked_v2]; [lit "gone"]] (mk_world sample_tree [] [])
    = (Ok tt, w1)
    /\ In (Print (Removed_file [marked_v2])) (trace w1)
    /\ returns (find_files ascii_only strict [] true) w1 [[lit "sub"; marked_phone]].
Proof.
  eexists. split; [vm_compute; reflexivity|]. cbn [trace].
  split; [right; left; reflexivity|]. eexists. vm_compute. reflexivity.
Qed.

(** ** Removals seen through links *)

(** A link holds a path, not a node: removing a file is seen through every
    link that leads to it. *)
Example removal_seen_through_a_link :
  let tree := Dir rw [ (lit "f.txt", File 1); (lit "l", Symlink [lit "f.txt"]) ] in
  path_exists [lit "l"] tree = inr true
  /\ stat_size [lit "l"] tree = inr 1%N
  /\ path_exists [lit "l"] (after_remove tree [lit "f.txt"]) = inr false
  /\ lresolve (after_remove tree [lit "f.txt"]) [lit "l"]
     = inr ([lit "l"], Symlink [lit "f.txt"]).
Proof. vm_compute. repeat split. Qed.

(** Removing a link can make another one dangle, and a dangling link with a
    marked name is a file for the scan: here [D] leads to [real] and the
    marked name leads to [D/sub]; before [D] is removed the marked name is a
    directory for [os.walk] and the scan returns nothing, afterwards the
    scan returns it. *)
Example removal_makes_a_link_dangle :
  let tree := Dir rw [ (lit "real", Dir rw [ (lit "sub", Dir rw []) ]);
                       (lit "D", Symlink [lit "real"]);
                       (marked_v2, Symlink [lit "D"; lit "sub"]) ] in
  returns (find_files ascii_only strict [] false) (mk_world tree [] []) []
  /\ returns (find_files ascii_only strict [] false)
             (mk_world (after_remove tree [lit "D"]) [] []) [[marked_v2]].
Proof. split; eexists; vm_compute; reflexivity. Qed.

(** The order of the checks of [os.remove]: a missing entry before the
    write permission of the directory, the write permission before the kind
    of the entry; and a path through a regular file is no directory. *)
Example os_remove_errors :
  let read_only := mk_dirattr true false true (fun _ => 4096%N) in
  let tree := Dir rw [ (lit "ro", Dir read_only [ (lit "d", Dir rw []);
                                                   (lit "f", File 1) ]);
                       (lit "locked", Dir no_search [ (lit "f", File 1) ]);
                       (lit "d", Dir rw []);
                       (lit "f", File 1) ] in
  unlink [lit "ro"; lit "missing"] tree = inl FileNotFoundError
  /\ unlink [lit "ro"; lit "d"] tree = inl PermissionError
  /\ unlink [lit "ro"; lit "f"] tree = inl PermissionError
  /\ unlink [lit "locked"; lit "f"] tree = inl PermissionError
  /\ unlink [lit "d"] tree = inl IsADirectoryError
  /\ unlink [lit "f"; lit "x"] tree = inl NotADirectoryError
  /\ stat_size [lit "f"; lit "x"] tree = inl NotADirectoryError
  /\ stat_size [lit "locked"; lit "f"] tree = inl PermissionError
  /\ path_exists [lit "f"; lit "x"] tree = inr false
  /\ path_exists [lit "locked"; lit "f"] tree = inl PermissionError.
Proof. vm_compute. repeat split. Qed.

(** A link that leads to itself: [stat] gives up after 40 links, which
    [exists()] reads as [False]; the scan takes the marked name for a file,
    and the sum of the sizes raises. *)
Example link_loop :
  let tree := Dir rw [ (marked_v2, Symlink [marked_v2]) ] in
  stat_size [marked_v2] tree = inl TooManyLinks
  /\ path_exists [marked_v2] tree = inr false
  /\ returns (find_files ascii_only strict [] false) (mk_world tree [] [])
             [[marked_v2]]
  /\ fst (main ascii_only strict None false (mk_world tree [lit "y"] []))
     = Raise TooManyLinks.
Proof.
  split; [vm_compute; reflexivity|]. split; [vm_compute; reflexivity|].
  split; [eexists; vm_compute; reflexivity | vm_compute; reflexivity].
Qed.
